(** * go-native-syscall: the identifier hasher (pkg/obf) and the
      system-call trampoline (pkg/unhook), embedded and verified.

    [Module Obf] follows src/pkg/obf/obf.go: the two byte hashes, the
    process-wide cache and collision registry as explicit state, and the
    administrative operations.  [Module Unhook] follows
    src/pkg/unhook/do_syscall.S instruction by instruction over a small
    x86-64 machine state. *)

From Stdlib Require Import ZArith Lia List Bool.
From Stdlib Require Import Strings.Byte Strings.Ascii Strings.String.
From stdpp Require Import gmap strings.

Local Open Scope Z_scope.

(** ** Fixed-width arithmetic shared by both packages *)

(** A Go [uint32] value is a [Z] in [0, 2^32); every arithmetic result is
    brought back into range by [uint32]. *)
Definition uint32 (z : Z) : Z := z mod 2 ^ 32.

Module Obf.

(** *** Bytes *)

(** [uint32(b)] for a Go byte. *)
Definition u32_of_byte (b : byte) : Z := Z.of_N (Byte.to_N b).

(** [b -= k] on a Go byte (uint8, wrap-around modulo 256). *)
Definition byte_sub (b : byte) (k : N) : byte :=
  match Byte.of_N ((Byte.to_N b + 256 - k) mod 256)%N with
  | Some b' => b'
  | None => x00
  end.

(** [[]byte(s)]: a Go string is its byte sequence. *)
Definition bytes_of_string (s : string) : list byte := list_byte_of_string s.

(** *** obf.go, lines 14-34 and 81-105: the two hashes *)

(** Lines 23-26 and 95-98: [if b >= 'a' { b -= 0x20 }].  The guard has a
    lower bound only. *)
Definition fold_case (b : byte) : byte :=
  if (0x61 <=? Byte.to_N b)%N then byte_sub b 0x20 else b.

(** One iteration of the loop body of [DBJ2Hash] (lines 18-31). *)
Definition dbj2_step (hash : Z) (b : byte) : Z :=
  if Byte.eqb b x00 then hash
  else
    let b := fold_case b in
    uint32 (uint32 (uint32 (Z.shiftl hash 5) + hash) + u32_of_byte b).

Definition DBJ2Hash (buffer : list byte) : Z :=
  fold_left dbj2_step buffer 5381.

Definition DBJ2HashStr (s : string) : Z := DBJ2Hash (bytes_of_string s).

Definition fnv1aOffset : Z := 2166136261.
Definition fnv1aPrime : Z := 16777619.

(** One iteration of the loop body of [FNV1AHash] (lines 90-102): the xor
    of two 32-bit values needs no wrap, the product does. *)
Definition fnv1a_step (hash : Z) (b : byte) : Z :=
  if Byte.eqb b x00 then hash
  else
    let b := fold_case b in
    uint32 (Z.lxor hash (u32_of_byte b) * fnv1aPrime).

Definition FNV1AHash (buffer : list byte) : Z :=
  fold_left fnv1a_step buffer fnv1aOffset.

(** Lines 108-117: the [switch] with its [fallthrough] into [default]. *)
Definition GetHashWithAlgorithm (s algorithm : string) : Z :=
  if String.eqb algorithm "fnv1a" then FNV1AHash (bytes_of_string s)
  else if String.eqb algorithm "dbj2" then DBJ2HashStr s
  else DBJ2HashStr s.

(** *** The reference definition of the default hash, after the
        specification's wording (not after the code) *)

Definition is_ascii_lower (b : byte) : bool :=
  ((0x61 <=? Byte.to_N b) && (Byte.to_N b <=? 0x7a))%N.

Definition is_ascii_upper (b : byte) : bool :=
  ((0x41 <=? Byte.to_N b) && (Byte.to_N b <=? 0x5a))%N.

(** Upper-casing of ASCII lowercase letters, and of nothing else. *)
Definition ascii_upper (b : byte) : byte :=
  if is_ascii_lower b then byte_sub b 0x20 else b.

Definition DBJ2Hash_reference_step (acc : Z) (b : byte) : Z :=
  if Byte.eqb b x00 then acc
  else (Z.shiftl acc 5 + acc + u32_of_byte (ascii_upper b)) mod 2 ^ 32.

Definition DBJ2Hash_reference (buffer : list byte) : Z :=
  fold_left DBJ2Hash_reference_step buffer 5381.

(** The specification's normal form of an input: zero bytes removed, ASCII
    letters in upper case. *)
Definition normalize (buffer : list byte) : list byte :=
  map ascii_upper (List.filter (fun b => negb (Byte.eqb b x00)) buffer).

(** Flipping the ASCII case of a letter; any other byte is left alone. *)
Definition swap_case (b : byte) : byte :=
  if is_ascii_lower b then byte_sub b 0x20
  else if is_ascii_upper b then byte_sub b 0xe0
  else b.

(** *** obf.go, lines 36-79 and 119-153: the cache, the collision
        registry and the operations on them *)

(** Modelled from the spec: [debug.Printfln] lives in pkg/debug, which is
    not among the sources; the specification calls its use here a
    non-fatal diagnostic event.  A call is recorded as one line, the tag
    followed by the arguments it was given, and returns normally. *)
Inductive logarg : Type :=
  | LogStr (s : string)
  | LogU32 (h : Z).

Definition logline : Type := string * list logarg.

(** The package-level variables of lines 37 and 39 (the two mutexes guard
    them and carry no data), and the lines printed so far. *)
Record state : Type := mkState {
  HashCache : gmap string Z;
  collisionDetector : gmap Z string;
  debugLog : list logline
}.

Definition init : state :=
  {| HashCache := ∅; collisionDetector := ∅; debugLog := [] |}.

(** The four lines printed at lines 71-74. *)
Definition collision_report (hash : Z) (existingString newString : string)
  : list logline :=
  [ ("OBF", [LogStr "Warning: Hash collision detected!"]);
    ("OBF", [LogStr "  Hash:"; LogU32 hash]);
    ("OBF", [LogStr "  Existing string:"; LogStr existingString]);
    ("OBF", [LogStr "  New string:"; LogStr newString]) ].

(** Lines 65-79. *)
Definition detectHashCollision (hash : Z) (newString : string) (st : state)
  : state :=
  match collisionDetector st !! hash with
  | Some existingString =>
      if String.eqb existingString newString then st
      else {| HashCache := HashCache st;
              collisionDetector := collisionDetector st;
              debugLog := debugLog st
                            ++ collision_report hash existingString newString |}
  | None =>
      {| HashCache := HashCache st;
         collisionDetector := <[hash := newString]> (collisionDetector st);
         debugLog := debugLog st |}
  end.

(** Lines 43-62. *)
Definition GetHash (s : string) (st : state) : Z * state :=
  match HashCache st !! s with
  | Some hash => (hash, st)
  | None =>
      let hash := DBJ2HashStr s in
      let st := {| HashCache := <[s := hash]> (HashCache st);
                   collisionDetector := collisionDetector st;
                   debugLog := debugLog st |} in
      let st := detectHashCollision hash s st in
      (hash, st)
  end.

(** The three critical sections of [GetHash], each under its own lock:
    the lookup of lines 44-49, the store of lines 54-56, and
    [detectHashCollision] called at line 59. *)
Definition GetHash_lookup (s : string) (st : state) : option Z :=
  HashCache st !! s.

Definition GetHash_store (s : string) (hash : Z) (st : state) : state :=
  {| HashCache := <[s := hash]> (HashCache st);
     collisionDetector := collisionDetector st;
     debugLog := debugLog st |}.

(** Lines 120-129. *)
Definition ClearHashCache (st : state) : state :=
  {| HashCache := ∅; collisionDetector := ∅; debugLog := debugLog st |}.

(** The map returned by [GetHashCacheStats], one field per key;
    ["cache_hit_ratio"] is the constant 0.0 of line 151. *)
Record stats : Type := mkStats {
  total_entries : Z;
  unique_hashes : Z;
  collisions : Z;
  cache_hit_ratio : Z
}.

(** Lines 132-153. *)
Definition GetHashCacheStats (st : state) : stats :=
  let collisions := 0 in
  let uniqueHashes := Z.of_nat (size (collisionDetector st)) in
  let totalEntries := Z.of_nat (size (HashCache st)) in
  let collisions :=
    if totalEntries >? uniqueHashes then totalEntries - uniqueHashes
    else collisions in
  {| total_entries := totalEntries;
     unique_hashes := uniqueHashes;
     collisions := collisions;
     cache_hit_ratio := 0 |}.

(** *** Histories of calls to the package *)

Inductive call : Type :=
  | CallGetHash (s : string)
  | CallGetHashWithAlgorithm (s algorithm : string)
  | CallClearHashCache
  | CallGetHashCacheStats.

Inductive result : Type :=
  | RetHash (h : Z)
  | RetUnit
  | RetStats (r : stats).

Definition exec (c : call) (st : state) : result * state :=
  match c with
  | CallGetHash s => let '(h, st') := GetHash s st in (RetHash h, st')
  | CallGetHashWithAlgorithm s algorithm =>
      (RetHash (GetHashWithAlgorithm s algorithm), st)
  | CallClearHashCache => (RetUnit, ClearHashCache st)
  | CallGetHashCacheStats => (RetStats (GetHashCacheStats st), st)
  end.

Definition run (cs : list call) (st : state) : state :=
  fold_left (fun st c => snd (exec c st)) cs st.

(** The strings handed to [GetHash] since the last [ClearHashCache], oldest
    first. *)
Definition observe (seen : list string) (c : call) : list string :=
  match c with
  | CallGetHash s => seen ++ [s]
  | CallClearHashCache => []
  | _ => seen
  end.

Definition observed (cs : list call) : list string := fold_left observe cs [].

(** The first of the observed strings that hashes to [h]. *)
Definition first_observed (cs : list call) (h : Z) : option string :=
  List.find (fun s => DBJ2HashStr s =? h) (observed cs).

(** *** The invariant tying the two maps to the history *)

(** [seen] is the list of strings observed since the last clear: the cache
    holds exactly those strings, each with its recomputed hash; the
    registry holds, for each identifier, the first of them that produces
    it; and the registry is no larger than the cache. *)
Definition coherent (st : state) (seen : list string) : Prop :=
  (forall s, HashCache st !! s
             = if decide (s ∈ seen) then Some (DBJ2HashStr s) else None) /\
  (forall h, collisionDetector st !! h
             = List.find (fun s => DBJ2HashStr s =? h) seen) /\
  (size (collisionDetector st) <= size (HashCache st))%nat.

(** *** Further definitions, used to state properties of the code above *)

(** The default hash carried out in unbounded integers: multiplier 33
    (line 30: [(hash << 5) + hash]), same skip and fold, no wrap-around. *)
Definition dbj2_unbounded_step (acc : Z) (b : byte) : Z :=
  if Byte.eqb b x00 then acc else 33 * acc + u32_of_byte (fold_case b).

Definition DBJ2Hash_unbounded (buffer : list byte) : Z :=
  fold_left dbj2_unbounded_step buffer 5381.

(** Four printed lines for every cached string that is not the registered
    one for its hash. *)
Definition reports_balance (st : state) : Prop :=
  (length (debugLog st) + 4 * size (collisionDetector st)
   = 4 * size (HashCache st))%nat.

(** The collisions statistic as it stood at each [ClearHashCache] of a
    history, summed: what the clears wiped from the statistics. *)
Fixpoint collisions_at_clears (cs : list call) (st : state) : Z :=
  match cs with
  | [] => 0
  | c :: cs' =>
      match c with
      | CallClearHashCache => collisions (GetHashCacheStats st)
      | _ => 0
      end
      + collisions_at_clears cs' (snd (exec c st))
  end.

(** The values returned by a history of calls, in order. *)
Fixpoint trace (cs : list call) (st : state) : list result :=
  match cs with
  | [] => []
  | c :: cs' => fst (exec c st) :: trace cs' (snd (exec c st))
  end.

End Obf.

Module Unhook.

(** *** A 64-bit machine state: what do_syscall.S reads and writes *)

Definition wrap64 (z : Z) : Z := z mod 2 ^ 64.

(** The two's-complement reading of a 64-bit register value. *)
Definition signed64 (z : Z) : Z := if z <? 2 ^ 63 then z else z - 2 ^ 64.

Inductive reg : Type :=
  | RAX | RCX | RDX | RBX | RSP | RBP | RSI | RDI
  | R8 | R9 | R10 | R11 | R12 | R13 | R14 | R15.

Definition reg_index (r : reg) : Z :=
  match r with
  | RAX => 0 | RCX => 1 | RDX => 2 | RBX => 3
  | RSP => 4 | RBP => 5 | RSI => 6 | RDI => 7
  | R8 => 8 | R9 => 9 | R10 => 10 | R11 => 11
  | R12 => 12 | R13 => 13 | R14 => 14 | R15 => 15
  end.

(** Registers hold values in [0, 2^64); memory is byte-addressed, the
    byte at address [a] being [mem a mod 256]; of the flags only those
    that [sub], [jle] and [rep movsq] touch or read are kept. *)
Record machine : Type := mkMachine {
  regs : reg -> Z;
  mem : Z -> Z;
  ZF : bool;
  SF : bool;
  OF : bool;
  CF : bool;
  DF : bool
}.

Definition set_reg (r : reg) (v : Z) (m : machine) : machine :=
  {| regs := fun r' => if reg_index r' =? reg_index r then v else regs m r';
     mem := mem m;
     ZF := ZF m; SF := SF m; OF := OF m; CF := CF m; DF := DF m |}.

Definition set_mem (f : Z -> Z) (m : machine) : machine :=
  {| regs := regs m; mem := f;
     ZF := ZF m; SF := SF m; OF := OF m; CF := CF m; DF := DF m |}.

Definition load8 (f : Z -> Z) (a : Z) : Z := f (wrap64 a) mod 256.

Definition store8 (f : Z -> Z) (a : Z) (v : Z) : Z -> Z :=
  fun x => if x =? wrap64 a then v mod 256 else f x.

(** Little-endian access to [n] consecutive bytes. *)
Fixpoint load_le (n : nat) (f : Z -> Z) (a : Z) : Z :=
  match n with
  | O => 0
  | S n' => load8 f a + 256 * load_le n' f (a + 1)
  end.

Fixpoint store_le (n : nat) (f : Z -> Z) (a : Z) (v : Z) : Z -> Z :=
  match n with
  | O => f
  | S n' => store_le n' (store8 f a v) (a + 1) (v / 256)
  end.

Definition load64 (f : Z -> Z) (a : Z) : Z := load_le 8 f a.
Definition store64 (f : Z -> Z) (a : Z) (v : Z) : Z -> Z := store_le 8 f a v.

(** *** The instructions the routine uses *)

(** [mov dst, src] between 64-bit registers. *)
Definition mov_rr (dst src : reg) (m : machine) : machine :=
  set_reg dst (regs m src) m.

(** [mov dst32, src32]: a 32-bit move clears the upper half of [dst]. *)
Definition mov_rr32 (dst src : reg) (m : machine) : machine :=
  set_reg dst (regs m src mod 2 ^ 32) m.

(** [mov \[base + disp\], src]. *)
Definition mov_mr (base : reg) (disp : Z) (src : reg) (m : machine) : machine :=
  set_mem (store64 (mem m) (wrap64 (regs m base + disp)) (regs m src)) m.

(** [mov dst, \[base + disp\]]. *)
Definition mov_rm (dst base : reg) (disp : Z) (m : machine) : machine :=
  set_reg dst (load64 (mem m) (wrap64 (regs m base + disp))) m.

(** [lea dst, \[base + disp\]]. *)
Definition lea (dst base : reg) (disp : Z) (m : machine) : machine :=
  set_reg dst (wrap64 (regs m base + disp)) m.

(** [sub dst, imm] with the flags it sets. *)
Definition sub_ri (dst : reg) (imm : Z) (m : machine) : machine :=
  let a := regs m dst in
  let r := wrap64 (a - imm) in
  let s := signed64 a - signed64 imm in
  {| regs := fun r' => if reg_index r' =? reg_index dst then r else regs m r';
     mem := mem m;
     ZF := r =? 0;
     SF := 2 ^ 63 <=? r;
     OF := negb ((- 2 ^ 63 <=? s) && (s <? 2 ^ 63));
     CF := a <? imm;
     DF := DF m |}.

(** The condition of [jle]: ZF = 1 or SF <> OF. *)
Definition jle_taken (m : machine) : bool := ZF m || xorb (SF m) (OF m).

(** One [movsq]: the quadword at \[rsi\] goes to \[rdi\], and both
    pointers move by 8, upwards when DF is clear. *)
Definition movsq (m : machine) : machine :=
  let v := load64 (mem m) (regs m RSI) in
  let m1 := set_mem (store64 (mem m) (regs m RDI) v) m in
  let step := if DF m then -8 else 8 in
  let m2 := set_reg RSI (wrap64 (regs m RSI + step)) m1 in
  set_reg RDI (wrap64 (regs m RDI + step)) m2.

(** [rep movsq]: [movsq] and a decrement of rcx, until rcx is zero. *)
Fixpoint rep_movsq_n (n : nat) (m : machine) : machine :=
  match n with
  | O => m
  | S n' =>
      let m1 := movsq m in
      rep_movsq_n n' (set_reg RCX (wrap64 (regs m1 RCX - 1)) m1)
  end.

Definition rep_movsq (m : machine) : machine :=
  rep_movsq_n (Z.to_nat (regs m RCX)) m.

(** [ret]: the return address at \[rsp\] is popped. *)
Definition ret (m : machine) : machine :=
  set_reg RSP (wrap64 (regs m RSP + 8)) m.

(** *** do_syscall.S *)

(** Lines 5-15: the two saves and the register shuffle. *)
Definition do_syscall_marshal (m : machine) : machine :=
  let m := mov_mr RSP (-0x8) RSI m in
  let m := mov_mr RSP (-0x10) RDI m in
  let m := mov_rr32 RAX RCX m in
  let m := mov_rr RCX RDX m in
  let m := mov_rr R10 R8 m in
  let m := mov_rr RDX R9 m in
  let m := mov_rm R8 RSP 0x28 m in
  let m := mov_rm R9 RSP 0x30 m in
  m.

(** Lines 20-23: the spill, reached only when [jle] is not taken. *)
Definition do_syscall_spill (m : machine) : machine :=
  let m := lea RSI RSP 0x38 m in
  let m := lea RDI RSP 0x28 m in
  rep_movsq m.

(** Lines 5-24: everything up to the label [skip]. *)
Definition do_syscall_entry (m : machine) : machine :=
  let m := do_syscall_marshal m in
  let m := sub_ri RCX 0x4 m in
  if jle_taken m then m else do_syscall_spill m.

(** Lines 4-30.  The kernel side of the [syscall] instruction is outside
    the routine and is taken as a state transformer. *)
Definition do_syscall (kernel : machine -> machine) (m : machine) : machine :=
  let m := do_syscall_entry m in
  let m := kernel m in
  let m := mov_rm RSI RSP (-0x8) m in
  let m := mov_rm RDI RSP (-0x10) m in
  ret m.

(** *** A concrete entry state and a stand-in for the kernel *)

(** Six arguments: rdx = 6, the quadword at rsp + 8 * k holds 100 + k (so
    the fifth and sixth arguments, at rsp + 0x38 and rsp + 0x40, are 107
    and 108), rsi and rdi hold recognisable values. *)
Definition sample_machine : machine :=
  {| regs := fun r =>
       match r with
       | RCX => 0x18 | RDX => 6 | R8 => 101 | R9 => 102
       | RSP => 0x1000 | RSI => 0x5151 | RDI => 0xD1D1
       | _ => 0
       end;
     mem := fun a =>
       if (0x1000 <=? a) && (a <? 0x1100) && (a mod 8 =? 0)
       then 100 + (a - 0x1000) / 8 else 0;
     ZF := false; SF := false; OF := false; CF := false; DF := false |}.

(** A kernel that answers with the fifth argument as it finds it at
    rsp + 0x28, and clobbers rcx and r11 as the [syscall] instruction
    does. *)
Definition echo_kernel (m : machine) : machine :=
  set_reg RAX (load64 (mem m) (regs m RSP + 0x28))
    (set_reg R11 0 (set_reg RCX 0 m)).

(** The same entry state with the direction flag set. *)
Definition sample_machine_df : machine :=
  {| regs := regs sample_machine; mem := mem sample_machine;
     ZF := false; SF := false; OF := false; CF := false; DF := true |}.

End Unhook.

(** ** Properties of pkg/obf *)

Module ObfFacts.
Import Obf.

Lemma uint32_range z : 0 <= uint32 z < 2 ^ 32.
Proof. unfold uint32. apply Z.mod_pos_bound. lia. Qed.

(** *** Facts about single bytes, each settled by running through the 256
        byte values *)

(** The goal is a chain of boolean premises over the byte [b]: evaluate it
    at each byte value, drop the values a premise excludes, and close the
    rest by computation. *)
Ltac byte_cases b :=
  destruct b; vm_compute; intros; try discriminate; repeat split; reflexivity.

Lemma fold_case_ge b :
  (0x61 <= Byte.to_N b)%N ->
  u32_of_byte (fold_case b) = u32_of_byte b - 0x20.
Proof. intros H. apply N.leb_le in H. revert H. byte_cases b. Qed.

Lemma ascii_upper_step b :
  Byte.eqb (ascii_upper b) x00 = Byte.eqb b x00 /\
  fold_case (ascii_upper b) = fold_case b.
Proof. byte_cases b. Qed.

Lemma swap_case_step b :
  Byte.eqb (swap_case b) x00 = Byte.eqb b x00 /\
  fold_case (swap_case b) = fold_case b.
Proof. byte_cases b. Qed.

Lemma swap_case_letter b :
  (is_ascii_lower b = true -> is_ascii_upper (swap_case b) = true) /\
  (is_ascii_upper b = true -> is_ascii_lower (swap_case b) = true) /\
  swap_case (swap_case b) = b.
Proof.
  destruct b; repeat split; intros; first [reflexivity | discriminate].
Qed.

(** *** The loop, one byte at a time *)

Lemma dbj2_step_zero hash : dbj2_step hash x00 = hash.
Proof. reflexivity. Qed.

Lemma fnv1a_step_zero hash : fnv1a_step hash x00 = hash.
Proof. reflexivity. Qed.

Lemma dbj2_step_same_fold hash b b' :
  Byte.eqb b' x00 = Byte.eqb b x00 -> fold_case b' = fold_case b ->
  dbj2_step hash b' = dbj2_step hash b.
Proof. intros Hz Hf. unfold dbj2_step. rewrite Hz, Hf. reflexivity. Qed.

Lemma fnv1a_step_same_fold hash b b' :
  Byte.eqb b' x00 = Byte.eqb b x00 -> fold_case b' = fold_case b ->
  fnv1a_step hash b' = fnv1a_step hash b.
Proof. intros Hz Hf. unfold fnv1a_step. rewrite Hz, Hf. reflexivity. Qed.

Lemma DBJ2Hash_app l1 l2 :
  DBJ2Hash (l1 ++ l2) = fold_left dbj2_step l2 (DBJ2Hash l1).
Proof. unfold DBJ2Hash. apply fold_left_app. Qed.

Lemma FNV1AHash_app l1 l2 :
  FNV1AHash (l1 ++ l2) = fold_left fnv1a_step l2 (FNV1AHash l1).
Proof. unfold FNV1AHash. apply fold_left_app. Qed.

Lemma dbj2_fold_normalize l : forall acc,
  fold_left dbj2_step (normalize l) acc = fold_left dbj2_step l acc.
Proof.
  unfold normalize. induction l as [|b l IH]; intros acc; [reflexivity|].
  cbn [List.filter fold_left].
  destruct (Byte.eqb b x00) eqn:Hb.
  - cbn [negb]. rewrite IH. unfold dbj2_step at 3. rewrite Hb. reflexivity.
  - cbn [negb map fold_left]. rewrite IH. f_equal.
    destruct (ascii_upper_step b) as [Hz Hf].
    apply dbj2_step_same_fold; assumption.
Qed.

Lemma dbj2_step_range hash b :
  0 <= hash < 2 ^ 32 -> 0 <= dbj2_step hash b < 2 ^ 32.
Proof.
  intros H. unfold dbj2_step. destruct (Byte.eqb b x00); [exact H|].
  apply uint32_range.
Qed.

Lemma DBJ2Hash_range l : 0 <= DBJ2Hash l < 2 ^ 32.
Proof.
  unfold DBJ2Hash. generalize 5381 (ltac:(lia) : 0 <= 5381 < 2 ^ 32).
  induction l as [|b l IH]; intros acc Hacc; cbn [fold_left]; [exact Hacc|].
  apply IH, dbj2_step_range, Hacc.
Qed.

(** Where the code and the reference definition part ways: only on bytes
    from 0x7B upwards.  The three wrapped additions of line 30 are one
    addition modulo 2^32. *)
Lemma dbj2_step_reference hash b :
  (Byte.to_N b < 0x7b)%N ->
  dbj2_step hash b = DBJ2Hash_reference_step hash b.
Proof.
  intros Hb. unfold dbj2_step, DBJ2Hash_reference_step. cbv zeta.
  destruct (Byte.eqb b x00); [reflexivity|].
  assert (Hf : fold_case b = ascii_upper b).
  { apply N.ltb_lt in Hb. revert Hb. byte_cases b. }
  rewrite Hf. unfold uint32.
  rewrite Zplus_mod_idemp_l, <- Z.add_assoc, Zplus_mod_idemp_l, Z.add_assoc. reflexivity.
Qed.

Lemma DBJ2Hash_refines_reference_below_7B l :
  Forall (fun b => (Byte.to_N b < 0x7b)%N) l ->
  DBJ2Hash l = DBJ2Hash_reference l.
Proof.
  unfold DBJ2Hash, DBJ2Hash_reference. generalize 5381.
  induction l as [|b l IH]; intros acc Hl; [reflexivity|].
  inversion Hl as [|? ? Hb Hl']; subst. cbn [fold_left].
  rewrite dbj2_step_reference by exact Hb. apply IH, Hl'.
Qed.

(** C1. The claim reads: DBJ2Hash equals the reference definition (seed
    5381, zero bytes skipped, ASCII lowercase letters and only those
    folded to upper case, acc = (acc << 5) + acc + byte modulo 2^32) on
    every byte sequence.  The code's guard is [b >= 'a'] without an upper
    bound, so on the one-byte input 0x7B the code returns 177664 (the
    hash of 0x5B) where the reference definition gives 177696. *)
Theorem DBJ2Hash_departs_from_reference :
  DBJ2Hash [x7b] = 177664 /\
  DBJ2Hash_reference [x7b] = 177696 /\
  DBJ2Hash [x7b] <> DBJ2Hash_reference [x7b].
Proof. vm_compute. repeat split; discriminate. Qed.

(** C8. The default hash does not see the ASCII case of letters nor zero
    bytes: flipping the case of any byte of the input, inserting or
    removing a zero byte anywhere, and replacing the input by its normal
    form (zero bytes dropped, letters upper-cased) all leave the identifier
    unchanged; the bytes after a zero byte are still hashed. *)
Theorem DBJ2Hash_normalization_invariant :
  (forall l1 b l2, DBJ2Hash (l1 ++ swap_case b :: l2) = DBJ2Hash (l1 ++ b :: l2)) /\
  (forall l1 l2, DBJ2Hash (l1 ++ x00 :: l2) = DBJ2Hash (l1 ++ l2)) /\
  (forall l1 l2, DBJ2Hash (l1 ++ x00 :: l2) = fold_left dbj2_step l2 (DBJ2Hash l1)) /\
  (forall l, DBJ2Hash (normalize l) = DBJ2Hash l) /\
  (DBJ2HashStr "Abc" = DBJ2HashStr "ABC" /\ DBJ2HashStr "ABC" = DBJ2HashStr "abc") /\
  DBJ2HashStr (String "a" (String "000" (String "b" EmptyString))) = DBJ2HashStr "ab".
Proof.
  repeat split.
  - intros l1 b l2. rewrite !DBJ2Hash_app. cbn [fold_left]. f_equal.
    destruct (swap_case_step b) as [Hz Hf].
    apply dbj2_step_same_fold; assumption.
  - intros l1 l2. rewrite !DBJ2Hash_app. reflexivity.
  - intros l1 l2. rewrite DBJ2Hash_app. reflexivity.
  - intros l. unfold DBJ2Hash. apply dbj2_fold_normalize.
Qed.

(** *** The fold of lines 23-26 and 95-98 on bytes from 0x61 upwards *)

Lemma byte_sub_step_le_0x80 b :
  (0x61 <= Byte.to_N b)%N -> (Byte.to_N b <= 0x80)%N ->
  Byte.eqb (byte_sub b 0x20) x00 = Byte.eqb b x00 /\
  fold_case (byte_sub b 0x20) = fold_case b.
Proof. intros H1 H2. apply N.leb_le in H1, H2. revert H1 H2. byte_cases b. Qed.

Lemma nonzero_ge_0x61 b : (0x61 <= Byte.to_N b)%N -> Byte.eqb b x00 = false.
Proof. intros H. apply N.leb_le in H. revert H. byte_cases b. Qed.

(** C3, as claimed, fails on the high bytes: 0x81 is folded to 0x61, but
    an input holding 0x61 in its place has that byte folded again, to
    0x41, so the two inputs hash differently under both algorithms. *)
Lemma fold_replacement_fails_at_0x81 :
  (0x61 <= Byte.to_N x81)%N /\
  byte_sub x81 0x20 = x61 /\
  DBJ2Hash [x81] <> DBJ2Hash [byte_sub x81 0x20] /\
  FNV1AHash [x81] <> FNV1AHash [byte_sub x81 0x20].
Proof. vm_compute. repeat split; discriminate. Qed.

(** C3, amended.  In both hashes every byte b >= 0x61, the bytes 0x7B to
    0xFF included, enters the accumulator as b - 0x20; and when moreover
    b <= 0x80 (so that b - 0x20 is itself below 0x61), replacing b by
    b - 0x20 anywhere in an input changes neither hash. *)
Theorem fold_case_from_0x61 (b : byte) :
  (0x61 <= Byte.to_N b)%N ->
  u32_of_byte (fold_case b) = u32_of_byte b - 0x20 /\
  (forall hash,
     dbj2_step hash b
       = uint32 (uint32 (uint32 (Z.shiftl hash 5) + hash) + (u32_of_byte b - 0x20)) /\
     fnv1a_step hash b
       = uint32 (Z.lxor hash (u32_of_byte b - 0x20) * fnv1aPrime)) /\
  ((Byte.to_N b <= 0x80)%N ->
   forall l1 l2,
     DBJ2Hash (l1 ++ b :: l2) = DBJ2Hash (l1 ++ byte_sub b 0x20 :: l2) /\
     FNV1AHash (l1 ++ b :: l2) = FNV1AHash (l1 ++ byte_sub b 0x20 :: l2)).
Proof.
  intros Hb. pose proof (fold_case_ge b Hb) as Hf.
  split; [exact Hf|]. split.
  - intros hash. unfold dbj2_step, fnv1a_step. cbv zeta.
    rewrite (nonzero_ge_0x61 b Hb), Hf. split; reflexivity.
  - intros Hle l1 l2.
    destruct (byte_sub_step_le_0x80 b Hb Hle) as [Hz Hs].
    rewrite !DBJ2Hash_app, !FNV1AHash_app. cbn [fold_left]. split; f_equal.
    + symmetry. apply dbj2_step_same_fold; assumption.
    + symmetry. apply fnv1a_step_same_fold; assumption.
Qed.

Lemma fold_case_from_0x61_witness :
  (0x61 <= Byte.to_N x7b)%N /\
  DBJ2Hash [x7b] = DBJ2Hash [x5b] /\
  FNV1AHash [x7b] = FNV1AHash [x5b].
Proof.
  assert (H : (0x61 <= Byte.to_N x7b)%N) by (vm_compute; discriminate).
  split; [exact H|].
  destruct (fold_case_from_0x61 x7b H) as (_ & _ & Hrep).
  assert (Hle : (Byte.to_N x7b <= 0x80)%N) by (vm_compute; discriminate).
  exact (Hrep Hle [] []).
Defined.

(** *** What one call does to each component of the state *)

Lemma detect_cache hash s st :
  HashCache (detectHashCollision hash s st) = HashCache st.
Proof.
  unfold detectHashCollision.
  destruct (collisionDetector st !! hash) as [e|]; [destruct (String.eqb e s)|];
    reflexivity.
Qed.

Lemma detect_registry hash s st :
  collisionDetector (detectHashCollision hash s st)
  = match collisionDetector st !! hash with
    | Some _ => collisionDetector st
    | None => <[hash := s]> (collisionDetector st)
    end.
Proof.
  unfold detectHashCollision.
  destruct (collisionDetector st !! hash) as [e|]; [destruct (String.eqb e s)|];
    reflexivity.
Qed.

Lemma detect_log hash s st :
  debugLog (detectHashCollision hash s st)
  = debugLog st ++
    match collisionDetector st !! hash with
    | Some e => if String.eqb e s then [] else collision_report hash e s
    | None => []
    end.
Proof.
  unfold detectHashCollision.
  destruct (collisionDetector st !! hash) as [e|]; [destruct (String.eqb e s)|];
    cbn [debugLog]; rewrite ?app_nil_r; reflexivity.
Qed.

Lemma GetHash_hit s st hash :
  HashCache st !! s = Some hash -> GetHash s st = (hash, st).
Proof. intros H. unfold GetHash. rewrite H. reflexivity. Qed.

Lemma GetHash_miss s st :
  HashCache st !! s = None ->
  GetHash s st
  = (DBJ2HashStr s,
     detectHashCollision (DBJ2HashStr s) s
       {| HashCache := <[s := DBJ2HashStr s]> (HashCache st);
          collisionDetector := collisionDetector st;
          debugLog := debugLog st |}).
Proof. intros H. unfold GetHash. rewrite H. reflexivity. Qed.

Lemma find_app_first {A} (f : A -> bool) (l1 l2 : list A) :
  List.find f (l1 ++ l2)
  = match List.find f l1 with Some x => Some x | None => List.find f l2 end.
Proof.
  induction l1 as [|a l1 IH]; [reflexivity|].
  cbn [app List.find]. destruct (f a); [reflexivity | exact IH].
Qed.

Lemma coherent_init : coherent init [].
Proof.
  unfold coherent, init. cbn [HashCache collisionDetector].
  split; [|split].
  - intros s. rewrite lookup_empty.
    destruct (decide (s ∈ [])) as [Hin|]; [|reflexivity].
    apply elem_of_nil in Hin. contradiction.
  - intros h. apply lookup_empty.
  - rewrite !map_size_empty. lia.
Qed.

Lemma coherent_GetHash s st seen :
  coherent st seen -> coherent (snd (GetHash s st)) (seen ++ [s]).
Proof.
  intros (Hc & Hr & Hsz).
  assert (Hfind : forall h (e : string),
             List.find (fun s0 => DBJ2HashStr s0 =? h) seen = Some e ->
             List.find (fun s0 => DBJ2HashStr s0 =? h) (seen ++ [s]) = Some e).
  { intros h e He. rewrite find_app_first, He. reflexivity. }
  assert (Hfind' : forall h,
             List.find (fun s0 => DBJ2HashStr s0 =? h) seen = None ->
             List.find (fun s0 => DBJ2HashStr s0 =? h) (seen ++ [s])
             = if DBJ2HashStr s =? h then Some s else None).
  { intros h He. rewrite find_app_first, He. reflexivity. }
  destruct (HashCache st !! s) as [hash|] eqn:Hs.
  - (* the cached value is returned and nothing is written *)
    rewrite (GetHash_hit _ _ _ Hs). cbn [snd].
    assert (Hin : s ∈ seen).
    { rewrite Hc in Hs. destruct (decide (s ∈ seen)); [assumption|discriminate]. }
    split; [|split]; [| |exact Hsz].
    + intros s0. rewrite Hc.
      destruct (decide (s0 ∈ seen)) as [H0|H0];
        destruct (decide (s0 ∈ seen ++ [s])) as [H1|H1]; try reflexivity.
      * exfalso. apply H1, elem_of_app. left. exact H0.
      * exfalso. apply elem_of_app in H1 as [H1|H1]; [contradiction|].
        apply list_elem_of_singleton in H1. subst s0. contradiction.
    + intros h. rewrite Hr.
      destruct (List.find (fun s0 => DBJ2HashStr s0 =? h) seen) as [e|] eqn:He.
      * symmetry. apply Hfind, He.
      * rewrite (Hfind' h He).
        destruct (DBJ2HashStr s =? h) eqn:Hh; [|reflexivity].
        exfalso. apply list_elem_of_In in Hin.
        pose proof (find_none _ _ He s Hin) as Hn. cbv beta in Hn. congruence.
  - rewrite (GetHash_miss _ _ Hs). cbn [snd].
    assert (Hnin : s ∉ seen).
    { rewrite Hc in Hs. destruct (decide (s ∈ seen)); [discriminate|assumption]. }
    split; [|split].
    + intros s0. rewrite detect_cache. cbn [HashCache].
      destruct (decide (s = s0)) as [->|Hne].
      * rewrite lookup_insert_eq.
        destruct (decide (s0 ∈ seen ++ [s0])) as [|H1]; [reflexivity|].
        exfalso. apply H1, elem_of_app. right. apply list_elem_of_singleton. reflexivity.
      * rewrite lookup_insert_ne by exact Hne. rewrite Hc.
        destruct (decide (s0 ∈ seen)) as [H0|H0];
          destruct (decide (s0 ∈ seen ++ [s])) as [H1|H1]; try reflexivity.
        -- exfalso. apply H1, elem_of_app. left. exact H0.
        -- exfalso. apply elem_of_app in H1 as [H1|H1]; [contradiction|].
           apply list_elem_of_singleton in H1. congruence.
    + intros h. rewrite detect_registry. cbn [collisionDetector].
      destruct (collisionDetector st !! DBJ2HashStr s) as [e|] eqn:He.
      * rewrite Hr.
        destruct (List.find (fun s0 => DBJ2HashStr s0 =? h) seen) as [e'|] eqn:He'.
        -- symmetry. apply Hfind, He'.
        -- rewrite (Hfind' h He').
           destruct (DBJ2HashStr s =? h) eqn:Hh; [|reflexivity].
           apply Z.eqb_eq in Hh. subst h. rewrite Hr in He. congruence.
      * destruct (decide (DBJ2HashStr s = h)) as [<-|Hne].
        -- rewrite lookup_insert_eq. rewrite Hr in He.
           rewrite (Hfind' _ He), Z.eqb_refl. reflexivity.
        -- rewrite lookup_insert_ne by exact Hne. rewrite Hr.
           destruct (List.find (fun s0 => DBJ2HashStr s0 =? h) seen) as [e'|] eqn:He'.
           ++ symmetry. apply Hfind, He'.
           ++ rewrite (Hfind' h He').
              destruct (DBJ2HashStr s =? h) eqn:Hh; [|reflexivity].
              apply Z.eqb_eq in Hh. contradiction.
    + rewrite detect_cache, detect_registry. cbn [HashCache collisionDetector].
      rewrite (map_size_insert_None _ _ _ Hs).
      destruct (collisionDetector st !! DBJ2HashStr s) as [e|] eqn:He.
      * lia.
      * rewrite (map_size_insert_None _ _ _ He). lia.
Qed.

Lemma coherent_exec c st seen :
  coherent st seen -> coherent (snd (exec c st)) (observe seen c).
Proof.
  intros H. destruct c as [s|s a| |]; cbn [exec observe snd].
  - pose proof (coherent_GetHash s st seen H) as H'.
    destruct (GetHash s st) as [h st']. exact H'.
  - exact H.
  - destruct coherent_init as (Hc & Hr & Hsz). split; [|split]; assumption.
  - exact H.
Qed.

Lemma coherent_fold cs : forall st seen,
  coherent st seen -> coherent (run cs st) (fold_left observe cs seen).
Proof.
  induction cs as [|c cs IH]; intros st seen H; [exact H|].
  cbn [run fold_left]. apply IH, coherent_exec, H.
Qed.

Lemma coherent_run cs : coherent (run cs init) (observed cs).
Proof. apply coherent_fold, coherent_init. Qed.

Lemma coherent_cached st seen s h :
  coherent st seen -> HashCache st !! s = Some h -> h = DBJ2HashStr s.
Proof.
  intros (Hc & _) Hs. rewrite Hc in Hs.
  destruct (decide (s ∈ seen)); congruence.
Qed.

Lemma coherent_registered st seen h s :
  coherent st seen -> collisionDetector st !! h = Some s ->
  HashCache st !! s = Some h /\ h = DBJ2HashStr s.
Proof.
  intros (Hc & Hr & _) Hs. rewrite Hr in Hs.
  apply find_some in Hs as [Hin Hh]. apply Z.eqb_eq in Hh.
  split; [|symmetry; exact Hh].
  rewrite Hc. apply list_elem_of_In in Hin.
  destruct (decide (s ∈ seen)); [congruence|contradiction].
Qed.

Lemma exec_GetHash s st :
  exec (CallGetHash s) st = (RetHash (fst (GetHash s st)), snd (GetHash s st)).
Proof. cbn [exec]. destruct (GetHash s st); reflexivity. Qed.

(** Resolving strings that are new to both maps and hash apart grows each
    map by one entry per string and prints nothing. *)
Lemma resolve_fresh_sizes ss : forall st,
  NoDup (map DBJ2HashStr ss) ->
  (forall s, In s ss -> HashCache st !! s = None) ->
  (forall s, In s ss -> collisionDetector st !! DBJ2HashStr s = None) ->
  let st' := run (map CallGetHash ss) st in
  size (HashCache st') = (size (HashCache st) + length ss)%nat /\
  size (collisionDetector st') = (size (collisionDetector st) + length ss)%nat /\
  debugLog st' = debugLog st.
Proof.
  induction ss as [|s ss IH]; intros st Hnd Hc Hr.
  - cbn. repeat split; lia.
  - cbn [map] in Hnd. apply NoDup_cons in Hnd as [Hs Hnd].
    assert (Hmiss : HashCache st !! s = None) by (apply Hc; left; reflexivity).
    assert (Hfree : collisionDetector st !! DBJ2HashStr s = None)
      by (apply Hr; left; reflexivity).
    assert (Hapart : forall s', In s' ss -> DBJ2HashStr s <> DBJ2HashStr s').
    { intros s' Hin Heq. apply Hs. rewrite Heq. apply list_elem_of_In, in_map, Hin. }
    cbn [map run fold_left length]. rewrite exec_GetHash. cbn [snd].
    rewrite (GetHash_miss _ _ Hmiss). cbn [snd].
    set (st1 := detectHashCollision _ _ _).
    assert (Hc1 : HashCache st1 = <[s := DBJ2HashStr s]> (HashCache st)).
    { unfold st1. rewrite detect_cache. reflexivity. }
    assert (Hr1 : collisionDetector st1
                  = <[DBJ2HashStr s := s]> (collisionDetector st)).
    { unfold st1. rewrite detect_registry. cbn [collisionDetector].
      rewrite Hfree. reflexivity. }
    assert (Hl1 : debugLog st1 = debugLog st).
    { unfold st1. rewrite detect_log. cbn [collisionDetector debugLog].
      rewrite Hfree. apply app_nil_r. }
    destruct (IH st1 Hnd) as (Sc & Sr & Sl).
    + intros s' Hin. rewrite Hc1, lookup_insert_ne.
      * apply Hc. right. exact Hin.
      * intros ->. exact (Hapart s' Hin eq_refl).
    + intros s' Hin. rewrite Hr1, lookup_insert_ne.
      * apply Hr. right. exact Hin.
      * apply Hapart, Hin.
    + fold (run (map CallGetHash ss) st1). rewrite Sc, Sr, Sl, Hc1, Hr1, Hl1.
      rewrite (map_size_insert_None _ _ _ Hmiss), (map_size_insert_None _ _ _ Hfree).
      repeat split; lia.
Qed.

(** C4. [GetHash] is a transparent memoization of [DBJ2HashStr]: in every
    state reached by calls to the package, [GetHash s] returns
    [DBJ2HashStr s]; every cached entry equals the recomputed hash; and a
    second [GetHash s] returns the same value and changes nothing. *)
Theorem GetHash_memoizes (cs : list call) (s : string) :
  let st := run cs init in
  fst (GetHash s st) = DBJ2HashStr s /\
  (forall s' h, HashCache st !! s' = Some h -> h = DBJ2HashStr s') /\
  GetHash s (snd (GetHash s st)) = (fst (GetHash s st), snd (GetHash s st)).
Proof.
  intros st. pose proof (coherent_run cs) as Hco. fold st in Hco.
  assert (H1 : fst (GetHash s st) = DBJ2HashStr s).
  { destruct (HashCache st !! s) as [h|] eqn:Hs.
    - rewrite (GetHash_hit _ _ _ Hs). cbn [fst].
      exact (coherent_cached _ _ _ _ Hco Hs).
    - rewrite (GetHash_miss _ _ Hs). reflexivity. }
  split; [exact H1|]. split.
  - intros s' h Hs'. exact (coherent_cached _ _ _ _ Hco Hs').
  - pose proof (coherent_GetHash s st _ Hco) as (Hc' & _).
    apply GetHash_hit. rewrite Hc', H1.
    destruct (decide (s ∈ observed cs ++ [s])) as [|Hn]; [reflexivity|].
    exfalso. apply Hn, elem_of_app. right. apply list_elem_of_singleton. reflexivity.
Qed.

(** C5. After any history the registry maps each identifier to the first
    string observed (since the last clear) to produce it.  A [GetHash]
    that computes a hash already registered finds it registered for a
    different string with the same hash, prints the four lines of lines
    71-74 (the warning, the hash, the existing string, the new string),
    still returns the hash, and leaves the registry as it was; one that
    computes an
    unregistered hash registers its string and prints nothing.  No call
    other than [ClearHashCache] changes an existing entry. *)
Theorem registry_keeps_first_string (cs : list call) (s : string) :
  let st := run cs init in
  let h := DBJ2HashStr s in
  (forall h', collisionDetector st !! h' = first_observed cs h') /\
  (HashCache st !! s = None ->
   fst (GetHash s st) = h /\
   match collisionDetector st !! h with
   | Some first =>
       first <> s /\ DBJ2HashStr first = h /\
       collisionDetector (snd (GetHash s st)) = collisionDetector st /\
       debugLog (snd (GetHash s st))
       = debugLog st ++
         [ ("OBF", [LogStr "Warning: Hash collision detected!"]);
           ("OBF", [LogStr "  Hash:"; LogU32 h]);
           ("OBF", [LogStr "  Existing string:"; LogStr first]);
           ("OBF", [LogStr "  New string:"; LogStr s]) ]
   | None =>
       collisionDetector (snd (GetHash s st)) = <[h := s]> (collisionDetector st) /\
       debugLog (snd (GetHash s st)) = debugLog st
   end) /\
  (forall c h' first,
     c <> CallClearHashCache ->
     collisionDetector st !! h' = Some first ->
     collisionDetector (snd (exec c st)) !! h' = Some first).
Proof.
  intros st h. pose proof (coherent_run cs) as Hco. fold st in Hco.
  split; [|split].
  - intros h'. destruct Hco as (_ & Hr & _). apply Hr.
  - intros Hmiss. rewrite (GetHash_miss _ _ Hmiss). cbn [fst snd].
    split; [reflexivity|].
    rewrite detect_registry, detect_log. cbn [collisionDetector debugLog].
    fold h. destruct (collisionDetector st !! h) as [first|] eqn:Hf.
    + destruct (coherent_registered _ _ _ _ Hco Hf) as [Hin Hh].
      assert (Hne : first <> s) by (intros ->; congruence).
      apply String.eqb_neq in Hne. rewrite Hne. repeat split.
      * apply String.eqb_neq, Hne.
      * symmetry. exact Hh.
    + rewrite app_nil_r. split; reflexivity.
  - intros c h' first Hc Hf.
    destruct c as [s0|s0 a| |]; [|exact Hf|contradiction|exact Hf].
    rewrite exec_GetHash. cbn [snd].
    destruct (HashCache st !! s0) as [h0|] eqn:Hs0.
    + rewrite (GetHash_hit _ _ _ Hs0). exact Hf.
    + rewrite (GetHash_miss _ _ Hs0). cbn [snd].
      rewrite detect_registry. cbn [collisionDetector].
      destruct (collisionDetector st !! DBJ2HashStr s0) eqn:Hd; [exact Hf|].
      rewrite lookup_insert_ne; [exact Hf|]. intros <-. congruence.
Qed.

Lemma registry_keeps_first_string_witness :
  let st := run [CallGetHash "abc"] init in
  HashCache st !! "ABC" = None /\
  fst (GetHash "ABC" st) = fst (GetHash "abc" init) /\
  collisionDetector (snd (GetHash "ABC" st)) !! DBJ2HashStr "ABC" = Some "abc" /\
  debugLog (snd (GetHash "ABC" st))
  = [ ("OBF", [LogStr "Warning: Hash collision detected!"]);
      ("OBF", [LogStr "  Hash:"; LogU32 193450027]);
      ("OBF", [LogStr "  Existing string:"; LogStr "abc"]);
      ("OBF", [LogStr "  New string:"; LogStr "ABC"]) ].
Proof.
  intros st.
  assert (Hmiss : HashCache st !! "ABC" = None) by (vm_compute; reflexivity).
  split; [exact Hmiss|].
  destruct (registry_keeps_first_string [CallGetHash "abc"] "ABC")
    as (_ & Hcompute & Hkeep).
  destruct (Hcompute Hmiss) as [Hret Hreg]. fold st in Hret, Hreg, Hkeep.
  assert (Hfirst : collisionDetector st !! DBJ2HashStr "ABC" = Some "abc")
    by (vm_compute; reflexivity).
  rewrite Hfirst in Hreg. destruct Hreg as (_ & _ & Hsame & Hlog).
  split; [rewrite Hret; vm_compute; reflexivity|]. split.
  - rewrite Hsame. exact Hfirst.
  - rewrite Hlog. vm_compute. reflexivity.
Defined.

(** C6. From the empty state, resolving k strings with pairwise distinct
    default hashes gives total_entries = unique_hashes = k and
    collisions = 0; [ClearHashCache] brings all three back to zero; and
    the next [GetHash] finds nothing cached, recomputes, and leaves the
    statistics at 1, 1, 0. *)
Theorem stats_after_distinct_strings (ss : list string) :
  NoDup (map DBJ2HashStr ss) ->
  let st := run (map CallGetHash ss) init in
  let k := Z.of_nat (length ss) in
  GetHashCacheStats st
  = {| total_entries := k; unique_hashes := k; collisions := 0;
       cache_hit_ratio := 0 |} /\
  GetHashCacheStats (ClearHashCache st)
  = {| total_entries := 0; unique_hashes := 0; collisions := 0;
       cache_hit_ratio := 0 |} /\
  forall s,
    HashCache (ClearHashCache st) !! s = None /\
    fst (GetHash s (ClearHashCache st)) = DBJ2HashStr s /\
    GetHashCacheStats (snd (GetHash s (ClearHashCache st)))
    = {| total_entries := 1; unique_hashes := 1; collisions := 0;
         cache_hit_ratio := 0 |}.
Proof.
  intros Hnd st k.
  destruct (resolve_fresh_sizes ss init Hnd) as (Sc & Sr & _).
  { intros s _. apply lookup_empty. }
  { intros s _. apply lookup_empty. }
  fold st in Sc, Sr. cbn [init HashCache collisionDetector] in Sc, Sr.
  rewrite map_size_empty in Sc. rewrite map_size_empty in Sr.
  cbn [Nat.add] in Sc, Sr.
  split; [|split].
  - unfold GetHashCacheStats. rewrite Sc, Sr. fold k.
    rewrite Z.gtb_ltb, Z.ltb_irrefl.
    reflexivity.
  - reflexivity.
  - intros s.
    assert (Hmiss : HashCache (ClearHashCache st) !! s = None) by apply lookup_empty.
    split; [exact Hmiss|]. rewrite (GetHash_miss _ _ Hmiss). cbn [fst snd].
    split; [reflexivity|].
    unfold GetHashCacheStats. rewrite detect_cache, detect_registry.
    cbn [ClearHashCache HashCache collisionDetector].
    rewrite lookup_empty, !map_size_insert_None, !map_size_empty
      by apply lookup_empty.
    reflexivity.
Qed.

Lemma stats_after_distinct_strings_witness :
  GetHashCacheStats (run (map CallGetHash ["NtClose"; "NtOpenFile"; "abc"]) init)
  = {| total_entries := 3; unique_hashes := 3; collisions := 0;
       cache_hit_ratio := 0 |}.
Proof.
  assert (Hnd : NoDup (map DBJ2HashStr ["NtClose"; "NtOpenFile"; "abc"])).
  { apply (bool_decide_unpack _). vm_compute. exact I. }
  exact (proj1 (stats_after_distinct_strings _ Hnd)).
Defined.

(** C7. [GetHashWithAlgorithm s "fnv1a"] is the FNV-1a hash of the bytes
    of s, [GetHashWithAlgorithm s "dbj2"] is [DBJ2HashStr s], any other
    algorithm name gives the same result as ["dbj2"], and the call
    neither depends on the state nor changes it. *)
Theorem GetHashWithAlgorithm_selects (s algorithm : string) (st : state) :
  GetHashWithAlgorithm s "fnv1a" = FNV1AHash (bytes_of_string s) /\
  GetHashWithAlgorithm s "dbj2" = DBJ2HashStr s /\
  (algorithm <> "fnv1a" -> algorithm <> "dbj2" ->
   GetHashWithAlgorithm s algorithm = GetHashWithAlgorithm s "dbj2") /\
  snd (exec (CallGetHashWithAlgorithm s algorithm) st) = st /\
  (forall st', fst (exec (CallGetHashWithAlgorithm s algorithm) st')
               = fst (exec (CallGetHashWithAlgorithm s algorithm) st)).
Proof.
  repeat split.
  intros Hf Hd. unfold GetHashWithAlgorithm.
  apply String.eqb_neq in Hf. rewrite Hf.
  destruct (String.eqb algorithm "dbj2"); reflexivity.
Qed.

Lemma GetHashWithAlgorithm_selects_witness :
  GetHashWithAlgorithm "NtClose" "unknown" = GetHashWithAlgorithm "NtClose" "dbj2".
Proof.
  destruct (GetHashWithAlgorithm_selects "NtClose" "unknown" init)
    as (_ & _ & Hfallback & _).
  apply Hfallback; discriminate.
Defined.

(** C10. After any history of calls, every key of the registry is the
    default hash of its recorded string and that string is in the cache
    under that hash; the registry is no larger than the cache; the
    collisions statistic is total_entries - unique_hashes; and when the
    test [totalEntries > uniqueHashes] fails, the two counts are equal. *)
Theorem registry_within_cache (cs : list call) :
  let st := run cs init in
  let r := GetHashCacheStats st in
  (forall h s, collisionDetector st !! h = Some s ->
               HashCache st !! s = Some h /\ h = DBJ2HashStr s) /\
  (size (collisionDetector st) <= size (HashCache st))%nat /\
  collisions r = total_entries r - unique_hashes r /\
  ((total_entries r >? unique_hashes r) = false ->
   total_entries r = unique_hashes r).
Proof.
  intros st r. pose proof (coherent_run cs) as Hco. fold st in Hco.
  assert (Hsz : (size (collisionDetector st) <= size (HashCache st))%nat)
    by (destruct Hco as (_ & _ & H); exact H).
  split; [|split; [exact Hsz|]].
  - intros h s Hs. exact (coherent_registered _ _ _ _ Hco Hs).
  - unfold r, GetHashCacheStats. cbn [collisions total_entries unique_hashes].
    destruct (Z.of_nat (size (HashCache st)) >? Z.of_nat (size (collisionDetector st)))
      eqn:Hgt.
    + split; [reflexivity | discriminate].
    + rewrite Z.gtb_ltb in Hgt. apply Z.ltb_ge in Hgt. split; [lia | intros _; lia].
Qed.

Lemma registry_within_cache_witness :
  let st := run [CallGetHash "abc"; CallGetHashWithAlgorithm "abc" "fnv1a";
                 CallGetHash "ABC"; CallGetHashCacheStats] init in
  collisions (GetHashCacheStats st) = 1 /\
  (size (collisionDetector st) <= size (HashCache st))%nat.
Proof.
  intros st.
  destruct (registry_within_cache
              [CallGetHash "abc"; CallGetHashWithAlgorithm "abc" "fnv1a";
               CallGetHash "ABC"; CallGetHashCacheStats]) as (_ & Hsz & Hcol & _).
  fold st in Hsz, Hcol. split; [|exact Hsz].
  rewrite Hcol. vm_compute. reflexivity.
Defined.

(** *** Outside sequential histories *)

(** A call of [GetHash] that runs undisturbed is its three critical
    sections one after the other. *)
Lemma GetHash_sections s st :
  GetHash s st
  = match GetHash_lookup s st with
    | Some hash => (hash, st)
    | None =>
        (DBJ2HashStr s,
         detectHashCollision (DBJ2HashStr s) s
           (GetHash_store s (DBJ2HashStr s) st))
    end.
Proof. reflexivity. Qed.

(** The locks are released between the sections, so another goroutine can
    run [ClearHashCache] after the store and before the collision check.
    The registry then has an entry and the cache none: the statistics read
    0 entries, 1 unique hash, 0 collisions.  The results on histories
    above are about calls that run one after the other. *)
Remark clear_between_sections :
  let h := DBJ2HashStr "abc" in
  GetHash_lookup "abc" init = None /\
  let st := detectHashCollision h "abc"
              (ClearHashCache (GetHash_store "abc" h init)) in
  GetHashCacheStats st
  = {| total_entries := 0; unique_hashes := 1; collisions := 0;
       cache_hit_ratio := 0 |}.
Proof. split; vm_compute; reflexivity. Qed.

(** ** Further properties of pkg/obf *)

(** *** The arithmetic of the two loop bodies *)

Lemma dbj2_step_mod a b :
  dbj2_step (a mod 2 ^ 32) b = dbj2_unbounded_step a b mod 2 ^ 32.
Proof.
  unfold dbj2_step, dbj2_unbounded_step. cbv zeta.
  destruct (Byte.eqb b x00); [reflexivity|].
  unfold uint32. rewrite Z.shiftl_mul_pow2 by lia.
  change (2 ^ 5) with 32. set (c := u32_of_byte (fold_case b)).
  rewrite Zplus_mod_idemp_l.
  set (M := 2 ^ 32). set (x := a mod M).
  assert (Ex : x = a - M * (a / M)) by (apply Z.mod_eq; unfold M; lia).
  assert (Ey : (x * 32) mod M = x * 32 - M * (x * 32 / M))
    by (apply Z.mod_eq; unfold M; lia).
  replace ((x * 32) mod M + x + c)
    with (33 * a + c + (- 33 * (a / M) - x * 32 / M) * M)
    by (rewrite Ey, Ex; ring).
  apply Z_mod_plus_full.
Qed.

Lemma dbj2_step_closed h b :
  0 <= h < 2 ^ 32 ->
  dbj2_step h b = dbj2_unbounded_step h b mod 2 ^ 32.
Proof.
  intros Hh. rewrite <- dbj2_step_mod. rewrite Z.mod_small by exact Hh.
  reflexivity.
Qed.

Lemma dbj2_fold_mod l : forall a,
  fold_left dbj2_step l (a mod 2 ^ 32)
  = fold_left dbj2_unbounded_step l a mod 2 ^ 32.
Proof.
  induction l as [|b l IH]; intros a; [reflexivity|].
  cbn [fold_left]. rewrite dbj2_step_mod. apply IH.
Qed.

Lemma fnv1a_step_range hash b :
  0 <= hash < 2 ^ 32 -> 0 <= fnv1a_step hash b < 2 ^ 32.
Proof.
  intros H. unfold fnv1a_step. destruct (Byte.eqb b x00); [exact H|].
  apply uint32_range.
Qed.

Lemma FNV1AHash_range l : 0 <= FNV1AHash l < 2 ^ 32.
Proof.
  unfold FNV1AHash.
  assert (H0 : 0 <= fnv1aOffset < 2 ^ 32) by (unfold fnv1aOffset; lia).
  revert H0. generalize fnv1aOffset.
  induction l as [|b l IH]; intros acc Hacc; cbn [fold_left]; [exact Hacc|].
  apply IH, fnv1a_step_range, Hacc.
Qed.

Lemma fnv1a_fold_normalize l : forall acc,
  fold_left fnv1a_step (normalize l) acc = fold_left fnv1a_step l acc.
Proof.
  unfold normalize. induction l as [|b l IH]; intros acc; [reflexivity|].
  cbn [List.filter fold_left].
  destruct (Byte.eqb b x00) eqn:Hb.
  - cbn [negb]. rewrite IH. unfold fnv1a_step at 3. rewrite Hb. reflexivity.
  - cbn [negb map fold_left]. rewrite IH. f_equal.
    destruct (ascii_upper_step b) as [Hz Hf].
    apply fnv1a_step_same_fold; assumption.
Qed.

(** X1. [DBJ2Hash] is the multiplier-33 polynomial hash of the folded
    nonzero bytes, seed 5381, taken modulo 2^32: wrapping after every
    shift and addition gives the same value as computing in unbounded
    integers and reducing once at the end; the result is a 32-bit value. *)
Theorem DBJ2Hash_polynomial (buffer : list byte) :
  DBJ2Hash buffer = DBJ2Hash_unbounded buffer mod 2 ^ 32 /\
  0 <= DBJ2Hash buffer < 2 ^ 32.
Proof.
  split; [|apply DBJ2Hash_range].
  unfold DBJ2Hash, DBJ2Hash_unbounded.
  rewrite <- dbj2_fold_mod. reflexivity.
Qed.

(** X2. [FNV1AHash] has the same blind spots as the default hash:
    flipping the ASCII case of any byte, inserting or removing a zero byte
    anywhere, and replacing the input by its normal form leave the result
    unchanged; the result is a 32-bit value. *)
Theorem FNV1AHash_normalization_invariant :
  (forall l1 b l2,
     FNV1AHash (l1 ++ swap_case b :: l2) = FNV1AHash (l1 ++ b :: l2)) /\
  (forall l1 l2, FNV1AHash (l1 ++ x00 :: l2) = FNV1AHash (l1 ++ l2)) /\
  (forall l, FNV1AHash (normalize l) = FNV1AHash l) /\
  (forall l, 0 <= FNV1AHash l < 2 ^ 32).
Proof.
  split; [|split; [|split]].
  - intros l1 b l2. rewrite !FNV1AHash_app. cbn [fold_left]. f_equal.
    destruct (swap_case_step b) as [Hz Hf].
    apply fnv1a_step_same_fold; assumption.
  - intros l1 l2. rewrite !FNV1AHash_app. reflexivity.
  - intros l. unfold FNV1AHash. apply fnv1a_fold_normalize.
  - apply FNV1AHash_range.
Qed.

Lemma fold_zero_bytes {A} (f : A -> byte -> A) :
  (forall a, f a x00 = a) ->
  forall n acc, fold_left f (repeat x00 n) acc = acc.
Proof.
  intros Hf. induction n as [|n IH]; intros acc; [reflexivity|].
  cbn [repeat fold_left]. rewrite Hf. apply IH.
Qed.

(** X3. An input made of zero bytes only, the empty input included,
    hashes to the seed under both algorithms, and such bytes in front of
    any input do not change its hash. *)
Theorem zero_bytes_hash_to_seed (n : nat) (buffer : list byte) :
  DBJ2Hash (repeat x00 n) = 5381 /\
  FNV1AHash (repeat x00 n) = 2166136261 /\
  DBJ2Hash (repeat x00 n ++ buffer) = DBJ2Hash buffer /\
  FNV1AHash (repeat x00 n ++ buffer) = FNV1AHash buffer.
Proof.
  pose proof (fold_zero_bytes dbj2_step dbj2_step_zero n) as Hd.
  pose proof (fold_zero_bytes fnv1a_step fnv1a_step_zero n) as Hf.
  unfold DBJ2Hash, FNV1AHash. rewrite !fold_left_app, !Hd, !Hf.
  repeat split.
Qed.

(** *** Both loop bodies are one-to-one in the accumulator *)

Lemma mod32_eq_divide a b :
  a mod 2 ^ 32 = b mod 2 ^ 32 -> (2 ^ 32 | a - b).
Proof.
  intros H. apply Z.mod_divide; [lia|].
  rewrite Zminus_mod, H, Z.sub_diag. reflexivity.
Qed.

(** Multiplication by an odd constant, followed by an addition, loses
    nothing modulo 2^32. *)
Lemma affine_mod32_inj k c x y :
  Z.gcd (2 ^ 32) k = 1 ->
  0 <= x < 2 ^ 32 -> 0 <= y < 2 ^ 32 ->
  (k * x + c) mod 2 ^ 32 = (k * y + c) mod 2 ^ 32 -> x = y.
Proof.
  intros Hg Hx Hy H. apply mod32_eq_divide in H.
  replace (k * x + c - (k * y + c)) with (k * (x - y)) in H by ring.
  apply Z.gauss in H; [|exact Hg]. destruct H as [q Hq].
  assert (q = 0) by nia. lia.
Qed.

Lemma lxor_range32 a b :
  0 <= a < 2 ^ 32 -> 0 <= b < 2 ^ 32 -> 0 <= Z.lxor a b < 2 ^ 32.
Proof.
  intros Ha Hb.
  assert (H0 : 0 <= Z.lxor a b) by (apply Z.lxor_nonneg; lia).
  split; [exact H0|].
  destruct (Z.eq_dec (Z.lxor a b) 0) as [->|Hne]; [lia|].
  apply Z.log2_lt_pow2; [lia|].
  pose proof (Z.log2_lxor a b ltac:(lia) ltac:(lia)) as Hl.
  assert (La : Z.log2 a < 32).
  { destruct (Z.eq_dec a 0) as [->|]; [cbn; lia|]. apply Z.log2_lt_pow2; lia. }
  assert (Lb : Z.log2 b < 32).
  { destruct (Z.eq_dec b 0) as [->|]; [cbn; lia|]. apply Z.log2_lt_pow2; lia. }
  lia.
Qed.

Lemma lxor_cancel_r a b c : Z.lxor a c = Z.lxor b c -> a = b.
Proof.
  intros H.
  rewrite <- (Z.lxor_0_r a), <- (Z.lxor_0_r b), <- (Z.lxor_nilpotent c).
  rewrite <- !Z.lxor_assoc, H. reflexivity.
Qed.

Lemma u32_of_byte_range b : 0 <= u32_of_byte b < 2 ^ 32.
Proof.
  unfold u32_of_byte. pose proof (Byte.to_N_bounded b) as H.
  change (2 ^ 32) with 4294967296. lia.
Qed.

Lemma dbj2_step_inj b h h' :
  0 <= h < 2 ^ 32 -> 0 <= h' < 2 ^ 32 ->
  dbj2_step h b = dbj2_step h' b -> h = h'.
Proof.
  intros Hh Hh'. rewrite !dbj2_step_closed by assumption.
  unfold dbj2_unbounded_step. destruct (Byte.eqb b x00).
  - rewrite !Z.mod_small by assumption. trivial.
  - apply affine_mod32_inj; [reflexivity | assumption | assumption].
Qed.

Lemma fnv1a_step_inj b h h' :
  0 <= h < 2 ^ 32 -> 0 <= h' < 2 ^ 32 ->
  fnv1a_step h b = fnv1a_step h' b -> h = h'.
Proof.
  intros Hh Hh'. unfold fnv1a_step. cbv zeta.
  destruct (Byte.eqb b x00); [trivial|].
  unfold uint32. intros H.
  pose proof (u32_of_byte_range (fold_case b)) as Hc.
  apply (lxor_cancel_r _ _ (u32_of_byte (fold_case b))).
  apply (affine_mod32_inj fnv1aPrime 0);
    [reflexivity | apply lxor_range32; assumption
     | apply lxor_range32; assumption |].
  rewrite !Z.add_0_r, !(Z.mul_comm fnv1aPrime). exact H.
Qed.

Lemma fold_step_inj (step : Z -> byte -> Z) :
  (forall h b, 0 <= h < 2 ^ 32 -> 0 <= step h b < 2 ^ 32) ->
  (forall b h h', 0 <= h < 2 ^ 32 -> 0 <= h' < 2 ^ 32 ->
                  step h b = step h' b -> h = h') ->
  forall l h h', 0 <= h < 2 ^ 32 -> 0 <= h' < 2 ^ 32 ->
                 fold_left step l h = fold_left step l h' -> h = h'.
Proof.
  intros Hrange Hinj. induction l as [|b l IH]; intros h h' Hh Hh' H.
  - exact H.
  - cbn [fold_left] in H. apply IH in H; [|apply Hrange, Hh|apply Hrange, Hh'].
    exact (Hinj b h h' Hh Hh' H).
Qed.

(** X4. Appending the same bytes to two inputs gives equal hashes exactly
    when the two inputs already had equal hashes: a collision survives
    every common suffix, and a common suffix never creates one.  This
    holds for both algorithms. *)
Theorem common_suffix_cancels (l1 l2 suffix : list byte) :
  (DBJ2Hash (l1 ++ suffix) = DBJ2Hash (l2 ++ suffix)
   <-> DBJ2Hash l1 = DBJ2Hash l2) /\
  (FNV1AHash (l1 ++ suffix) = FNV1AHash (l2 ++ suffix)
   <-> FNV1AHash l1 = FNV1AHash l2).
Proof.
  rewrite !DBJ2Hash_app, !FNV1AHash_app. split; split.
  - apply (fold_step_inj dbj2_step);
      [intros h b; apply dbj2_step_range | apply dbj2_step_inj
       | apply DBJ2Hash_range | apply DBJ2Hash_range].
  - intros ->. reflexivity.
  - apply (fold_step_inj fnv1a_step);
      [intros h b; apply fnv1a_step_range | apply fnv1a_step_inj
       | apply FNV1AHash_range | apply FNV1AHash_range].
  - intros ->. reflexivity.
Qed.

(** X5. The default hash collides on every pair of inputs that differ in
    two neighbouring nonzero bytes so that, after the fold, the first
    byte goes up by one and the second goes down by 33 (for instance AZ
    against B9), whatever comes before and after. *)
Theorem DBJ2Hash_adjacent_collision (l1 l2 : list byte) (a b a' b' : byte) :
  Byte.eqb a x00 = false -> Byte.eqb b x00 = false ->
  Byte.eqb a' x00 = false -> Byte.eqb b' x00 = false ->
  u32_of_byte (fold_case a') = u32_of_byte (fold_case a) + 1 ->
  u32_of_byte (fold_case b') + 33 = u32_of_byte (fold_case b) ->
  DBJ2Hash (l1 ++ a :: b :: l2) = DBJ2Hash (l1 ++ a' :: b' :: l2).
Proof.
  intros Za Zb Za' Zb' Ha Hb. rewrite !DBJ2Hash_app. cbn [fold_left]. f_equal.
  pose proof (DBJ2Hash_range l1) as Hr.
  rewrite (dbj2_step_closed _ a Hr), (dbj2_step_closed _ a' Hr), !dbj2_step_mod.
  unfold dbj2_unbounded_step. rewrite Za, Zb, Za', Zb'.
  f_equal. lia.
Qed.

Lemma DBJ2Hash_adjacent_collision_witness :
  DBJ2HashStr "AZ" = DBJ2HashStr "B9".
Proof.
  apply (DBJ2Hash_adjacent_collision [] [] "A"%byte "Z"%byte "B"%byte "9"%byte);
    reflexivity.
Defined.

(** *** The cache and the registry over histories, continued *)

(** X6. No call other than [ClearHashCache] removes or changes a cache
    entry, in any state of the two maps. *)
Theorem cache_entries_persist (st : state) (c : call) (s : string) (h : Z) :
  c <> CallClearHashCache ->
  HashCache st !! s = Some h ->
  HashCache (snd (exec c st)) !! s = Some h.
Proof.
  intros Hc Hs. destruct c as [s0|s0 a| |]; [|exact Hs|contradiction|exact Hs].
  rewrite exec_GetHash. cbn [snd].
  destruct (HashCache st !! s0) as [h0|] eqn:Hs0.
  - rewrite (GetHash_hit _ _ _ Hs0). exact Hs.
  - rewrite (GetHash_miss _ _ Hs0). cbn [snd].
    rewrite detect_cache. cbn [HashCache].
    rewrite lookup_insert_ne; [exact Hs|]. intros ->. congruence.
Qed.

Lemma cache_entries_persist_witness :
  HashCache (run [CallGetHash "abc"; CallGetHash "ABC"] init) !! "abc"
  = Some (DBJ2HashStr "abc").
Proof.
  apply (cache_entries_persist (run [CallGetHash "abc"] init) (CallGetHash "ABC")).
  - discriminate.
  - vm_compute. reflexivity.
Defined.

Lemma coherent_cache_dom st seen :
  coherent st seen -> dom (HashCache st) = list_to_set seen.
Proof.
  intros (Hc & _). apply set_eq. intros s.
  rewrite elem_of_dom, elem_of_list_to_set, Hc.
  destruct (decide (s ∈ seen)) as [Hin|Hnin].
  - split; [intros _; exact Hin | intros _; eexists; reflexivity].
  - split; [intros [x Hx]; discriminate | intros Hin; contradiction].
Qed.

Lemma coherent_registry_dom st seen :
  coherent st seen ->
  dom (collisionDetector st) = list_to_set (map DBJ2HashStr seen).
Proof.
  intros (_ & Hr & _). apply set_eq. intros h.
  rewrite elem_of_dom, elem_of_list_to_set, Hr. split.
  - intros [s Hs]. apply find_some in Hs as [Hin Hh]. apply Z.eqb_eq in Hh.
    apply list_elem_of_In. rewrite <- Hh. apply in_map, Hin.
  - intros Hin. apply list_elem_of_In, in_map_iff in Hin as (s & Hh & Hin).
    destruct (List.find (fun s0 => DBJ2HashStr s0 =? h) seen) as [e|] eqn:He;
      [eexists; reflexivity|].
    pose proof (find_none _ _ He s Hin) as Hn. cbv beta in Hn.
    apply Z.eqb_neq in Hn. contradiction.
Qed.

(** X7. After any history, total_entries is the number of distinct
    strings handed to [GetHash] since the last clear, and unique_hashes is
    the number of distinct default hashes among them. *)
Theorem stats_count_distinct (cs : list call) :
  let r := GetHashCacheStats (run cs init) in
  total_entries r
  = Z.of_nat (size (list_to_set (observed cs) : gset string)) /\
  unique_hashes r
  = Z.of_nat (size (list_to_set (map DBJ2HashStr (observed cs)) : gset Z)).
Proof.
  intros r. pose proof (coherent_run cs) as Hco.
  unfold r, GetHashCacheStats. cbn [total_entries unique_hashes].
  rewrite <- (coherent_cache_dom _ _ Hco), <- (coherent_registry_dom _ _ Hco).
  rewrite !size_dom. split; reflexivity.
Qed.

(** X9. Resolving two different strings with the same default hash from
    the empty state returns that hash twice, prints exactly the four
    lines of one report (the warning, the hash, the first string as the
    existing one, the second as the new one), keeps the first string in
    the registry, and leaves the statistics at 2 entries, 1 unique hash,
    1 collision. *)
Theorem two_colliding_strings (s1 s2 : string) :
  s1 <> s2 ->
  DBJ2HashStr s1 = DBJ2HashStr s2 ->
  let h := DBJ2HashStr s1 in
  let cs := [CallGetHash s1; CallGetHash s2] in
  trace cs init = [RetHash h; RetHash h] /\
  debugLog (run cs init)
  = [ ("OBF", [LogStr "Warning: Hash collision detected!"]);
      ("OBF", [LogStr "  Hash:"; LogU32 h]);
      ("OBF", [LogStr "  Existing string:"; LogStr s1]);
      ("OBF", [LogStr "  New string:"; LogStr s2]) ] /\
  collisionDetector (run cs init) !! h = Some s1 /\
  GetHashCacheStats (run cs init)
  = {| total_entries := 2; unique_hashes := 1; collisions := 1;
       cache_hit_ratio := 0 |}.
Proof.
  intros Hne Heq h cs.
  set (st1 := {| HashCache := <[s1 := h]> ∅;
                 collisionDetector := <[h := s1]> ∅;
                 debugLog := [] |}).
  set (st2 := {| HashCache := <[s2 := h]> (<[s1 := h]> ∅);
                 collisionDetector := <[h := s1]> ∅;
                 debugLog := collision_report h s1 s2 |}).
  assert (E1 : GetHash s1 init = (h, st1)).
  { rewrite GetHash_miss by apply lookup_empty.
    unfold detectHashCollision. cbn [init HashCache collisionDetector debugLog].
    rewrite lookup_empty. reflexivity. }
  assert (E2 : GetHash s2 st1 = (h, st2)).
  { rewrite GetHash_miss.
    - rewrite <- Heq. fold h. unfold detectHashCollision.
      cbn [st1 HashCache collisionDetector debugLog].
      rewrite lookup_insert_eq.
      apply String.eqb_neq in Hne. rewrite Hne. reflexivity.
    - cbn [st1 HashCache]. rewrite lookup_insert_ne by exact Hne.
      apply lookup_empty. }
  assert (Er : run cs init = st2).
  { unfold cs, run. cbn [fold_left]. rewrite !exec_GetHash. cbn [snd].
    rewrite E1. cbn [snd]. rewrite E2. reflexivity. }
  split; [|rewrite Er; split; [reflexivity|split]].
  - unfold cs. cbn [trace]. rewrite !exec_GetHash. cbn [fst snd].
    rewrite E1. cbn [fst snd]. rewrite E2. reflexivity.
  - cbn [st2 collisionDetector]. apply lookup_insert_eq.
  - unfold GetHashCacheStats. cbn [st2 HashCache collisionDetector].
    rewrite !map_size_insert_None, !map_size_empty.
    + reflexivity.
    + apply lookup_empty.
    + apply lookup_empty.
    + rewrite lookup_insert_ne by exact Hne. apply lookup_empty.
Qed.

Lemma two_colliding_strings_witness :
  let cs := [CallGetHash "NtClose"; CallGetHash "ntclose"] in
  debugLog (run cs init)
  = [ ("OBF", [LogStr "Warning: Hash collision detected!"]);
      ("OBF", [LogStr "  Hash:"; LogU32 (DBJ2HashStr "NtClose")]);
      ("OBF", [LogStr "  Existing string:"; LogStr "NtClose"]);
      ("OBF", [LogStr "  New string:"; LogStr "ntclose"]) ] /\
  GetHashCacheStats (run cs init)
  = {| total_entries := 2; unique_hashes := 1; collisions := 1;
       cache_hit_ratio := 0 |}.
Proof.
  intros cs.
  assert (Hne : "NtClose" <> "ntclose") by discriminate.
  assert (Heq : DBJ2HashStr "NtClose" = DBJ2HashStr "ntclose")
    by (vm_compute; reflexivity).
  destruct (two_colliding_strings "NtClose" "ntclose" Hne Heq)
    as (_ & Hlog & _ & Hstats).
  split; [exact Hlog | exact Hstats].
Defined.

(** X11. On every state reached by a history, the cached path and the
    uncached path agree: [GetHash s] returns what
    [GetHashWithAlgorithm s algorithm] returns for every algorithm name
    other than "fnv1a". *)
Theorem GetHash_agrees_with_uncached (cs : list call) (s algorithm : string) :
  algorithm <> "fnv1a" ->
  fst (GetHash s (run cs init)) = GetHashWithAlgorithm s algorithm.
Proof.
  intros Ha. pose proof (coherent_run cs) as Hco.
  assert (Hu : GetHashWithAlgorithm s algorithm = DBJ2HashStr s).
  { unfold GetHashWithAlgorithm. apply String.eqb_neq in Ha. rewrite Ha.
    destruct (String.eqb algorithm "dbj2"); reflexivity. }
  rewrite Hu. destruct (HashCache (run cs init) !! s) as [h|] eqn:Hs.
  - rewrite (GetHash_hit _ _ _ Hs). exact (coherent_cached _ _ _ _ Hco Hs).
  - rewrite (GetHash_miss _ _ Hs). reflexivity.
Qed.

Lemma GetHash_agrees_with_uncached_witness :
  fst (GetHash "NtClose" (run [CallGetHash "NtClose"] init))
  = GetHashWithAlgorithm "NtClose" "sha256".
Proof.
  apply GetHash_agrees_with_uncached. discriminate.
Defined.

(** X12. Whatever has been resolved before, [GetHash] returns the same
    identifier for two strings whose bytes have the same normal form
    (zero bytes dropped, ASCII letters upper-cased). *)
Theorem GetHash_same_normal_form (cs1 cs2 : list call) (s1 s2 : string) :
  normalize (bytes_of_string s1) = normalize (bytes_of_string s2) ->
  fst (GetHash s1 (run cs1 init)) = fst (GetHash s2 (run cs2 init)).
Proof.
  intros Hn.
  assert (Hg : forall cs s, fst (GetHash s (run cs init)) = DBJ2HashStr s).
  { intros cs s. pose proof (coherent_run cs) as Hco.
    destruct (HashCache (run cs init) !! s) as [h|] eqn:Hs.
    - rewrite (GetHash_hit _ _ _ Hs). exact (coherent_cached _ _ _ _ Hco Hs).
    - rewrite (GetHash_miss _ _ Hs). reflexivity. }
  rewrite !Hg. unfold DBJ2HashStr, DBJ2Hash.
  rewrite <- (dbj2_fold_normalize (bytes_of_string s1)),
          <- (dbj2_fold_normalize (bytes_of_string s2)), Hn.
  reflexivity.
Qed.

Lemma GetHash_same_normal_form_witness :
  fst (GetHash "NtOpenFile" (run [CallGetHash "abc"] init))
  = fst (GetHash "NTOPENFILE" (run [CallClearHashCache] init)).
Proof.
  apply GetHash_same_normal_form. vm_compute. reflexivity.
Defined.

(** *** Reports against statistics, and what a reset forgets *)

Lemma reports_balance_exec c st seen :
  c <> CallClearHashCache ->
  coherent st seen -> reports_balance st ->
  reports_balance (snd (exec c st)).
Proof.
  intros Hc Hco Hb.
  destruct c as [s|s a| |]; [|exact Hb|contradiction|exact Hb].
  rewrite exec_GetHash. cbn [snd].
  destruct (HashCache st !! s) as [h|] eqn:Hs.
  - rewrite (GetHash_hit _ _ _ Hs). exact Hb.
  - rewrite (GetHash_miss _ _ Hs). cbn [snd]. unfold reports_balance in *.
    rewrite detect_cache, detect_registry, detect_log.
    cbn [HashCache collisionDetector debugLog].
    rewrite (map_size_insert_None _ _ _ Hs).
    destruct (collisionDetector st !! DBJ2HashStr s) as [first|] eqn:Hf.
    + destruct (coherent_registered _ _ _ _ Hco Hf) as [Hin _].
      assert (Hne : first <> s) by (intros ->; congruence).
      apply String.eqb_neq in Hne. rewrite Hne.
      rewrite length_app. cbn [collision_report length]. lia.
    + rewrite (map_size_insert_None _ _ _ Hf), app_nil_r. lia.
Qed.

Lemma reports_balance_run cs : forall st seen,
  Forall (fun c => c <> CallClearHashCache) cs ->
  coherent st seen -> reports_balance st ->
  reports_balance (run cs st).
Proof.
  induction cs as [|c cs IH]; intros st seen Hcs Hco Hb; [exact Hb|].
  inversion Hcs as [|? ? Hc Hcs']; subst. cbn [run fold_left].
  apply (IH _ (observe seen c)); [exact Hcs'| |].
  - apply coherent_exec, Hco.
  - exact (reports_balance_exec c st seen Hc Hco Hb).
Qed.

(** X8. In a history without [ClearHashCache], the number of lines
    printed by the collision check is four times the collisions
    statistic: every counted collision was reported once, and nothing
    else was printed. *)
Theorem reports_match_collisions (cs : list call) :
  Forall (fun c => c <> CallClearHashCache) cs ->
  Z.of_nat (length (debugLog (run cs init)))
  = 4 * collisions (GetHashCacheStats (run cs init)).
Proof.
  intros Hcs.
  assert (Hb : reports_balance (run cs init)).
  { apply (reports_balance_run cs init []); [exact Hcs|apply coherent_init|].
    unfold reports_balance. cbn. rewrite !map_size_empty. reflexivity. }
  unfold reports_balance in Hb.
  unfold GetHashCacheStats. cbn [collisions].
  destruct (Z.of_nat (size (HashCache (run cs init)))
            >? Z.of_nat (size (collisionDetector (run cs init)))) eqn:Hgt.
  - lia.
  - rewrite Z.gtb_ltb in Hgt. apply Z.ltb_ge in Hgt. lia.
Qed.

Lemma reports_match_collisions_witness :
  let cs := [CallGetHash "abc"; CallGetHash "ABC"; CallGetHashCacheStats;
             CallGetHash "Abc"; CallGetHash "abc"] in
  Z.of_nat (length (debugLog (run cs init))) = 8.
Proof.
  intros cs.
  assert (Hcs : Forall (fun c => c <> CallClearHashCache) cs)
    by (repeat constructor; discriminate).
  rewrite (reports_match_collisions cs Hcs). vm_compute. reflexivity.
Defined.

(** The cached strings that are not the registered one for their hash. *)
Lemma collisions_coherent st seen :
  coherent st seen ->
  collisions (GetHashCacheStats st)
  = Z.of_nat (size (HashCache st)) - Z.of_nat (size (collisionDetector st)).
Proof.
  intros (_ & _ & Hsz). unfold GetHashCacheStats. cbn [collisions].
  destruct (Z.of_nat (size (HashCache st))
            >? Z.of_nat (size (collisionDetector st))) eqn:Hgt.
  - reflexivity.
  - rewrite Z.gtb_ltb in Hgt. apply Z.ltb_ge in Hgt. lia.
Qed.

(** One call, on a state the package can reach: the lines it prints are
    four for each collision it adds to the statistic, and a clear prints
    nothing. *)
Lemma reports_step c st seen :
  coherent st seen ->
  Z.of_nat (length (debugLog (snd (exec c st))))
  = Z.of_nat (length (debugLog st))
    + match c with
      | CallClearHashCache => 0
      | _ => 4 * (collisions (GetHashCacheStats (snd (exec c st)))
                  - collisions (GetHashCacheStats st))
      end.
Proof.
  intros Hco. pose proof (coherent_exec c st seen Hco) as Hco'.
  rewrite (collisions_coherent _ _ Hco), (collisions_coherent _ _ Hco').
  destruct c as [s|s a| |]; [|cbn [exec snd]; lia|cbn; lia|cbn [exec snd]; lia].
  rewrite exec_GetHash. cbn [snd].
  destruct (HashCache st !! s) as [h|] eqn:Hs.
  - rewrite (GetHash_hit _ _ _ Hs). cbn [snd]. lia.
  - rewrite (GetHash_miss _ _ Hs). cbn [snd].
    rewrite detect_cache, detect_registry, detect_log.
    cbn [HashCache collisionDetector debugLog].
    rewrite (map_size_insert_None _ _ _ Hs).
    destruct (collisionDetector st !! DBJ2HashStr s) as [first|] eqn:Hf.
    + destruct (coherent_registered _ _ _ _ Hco Hf) as [Hin _].
      assert (Hne : first <> s) by (intros ->; congruence).
      apply String.eqb_neq in Hne. rewrite Hne.
      rewrite length_app. cbn [collision_report length]. lia.
    + rewrite (map_size_insert_None _ _ _ Hf), app_nil_r. lia.
Qed.

Lemma reports_over_clears cs : forall st seen,
  coherent st seen ->
  Z.of_nat (length (debugLog (run cs st)))
  = Z.of_nat (length (debugLog st))
    + 4 * (collisions_at_clears cs st
           + collisions (GetHashCacheStats (run cs st))
           - collisions (GetHashCacheStats st)).
Proof.
  induction cs as [|c cs IH]; intros st seen Hco.
  - cbn [run fold_left collisions_at_clears]. lia.
  - pose proof (coherent_exec c st seen Hco) as Hco'.
    pose proof (reports_step c st seen Hco) as Hstep.
    cbn [run fold_left collisions_at_clears].
    fold (run cs (snd (exec c st))).
    rewrite (IH _ _ Hco'), Hstep.
    destruct c as [s|s a| |]; try lia.
    assert (H0 : collisions (GetHashCacheStats (snd (exec CallClearHashCache st))) = 0)
      by reflexivity.
    lia.
Qed.

(** X10. [ClearHashCache] resets the collisions statistic but not what
    was printed: over any history, clears included, the number of lines
    printed by the collision check is four times the sum of the
    collisions statistic as it stood at each [ClearHashCache] and its
    value at the end.  So every collision ever counted was reported
    once, and a collision resolved again after a clear is counted and
    reported again. *)
Theorem reports_survive_clear (cs : list call) :
  Z.of_nat (length (debugLog (run cs init)))
  = 4 * (collisions_at_clears cs init
         + collisions (GetHashCacheStats (run cs init))).
Proof.
  rewrite (reports_over_clears cs init [] coherent_init).
  assert (H0 : collisions (GetHashCacheStats init) = 0) by reflexivity.
  assert (H1 : Z.of_nat (length (debugLog init)) = 0) by reflexivity.
  lia.
Qed.

(** *** One byte replaced by another *)

Lemma u32_of_byte_inj a b : u32_of_byte a = u32_of_byte b -> a = b.
Proof.
  unfold u32_of_byte. intros H. apply N2Z.inj in H.
  assert (Hs : Some a = Some b)
    by (rewrite <- (Byte.of_to_N a), <- (Byte.of_to_N b), H; reflexivity).
  congruence.
Qed.

Lemma u32_of_byte_small b : 0 <= u32_of_byte b < 256.
Proof. unfold u32_of_byte. pose proof (Byte.to_N_bounded b). lia. Qed.

Lemma dbj2_step_byte_inj h a b :
  0 <= h < 2 ^ 32 ->
  Byte.eqb a x00 = false -> Byte.eqb b x00 = false ->
  dbj2_step h a = dbj2_step h b -> fold_case a = fold_case b.
Proof.
  intros Hh Za Zb. rewrite !dbj2_step_closed by exact Hh.
  unfold dbj2_unbounded_step. rewrite Za, Zb. intros H.
  apply mod32_eq_divide in H.
  replace (33 * h + u32_of_byte (fold_case a)
           - (33 * h + u32_of_byte (fold_case b)))
    with (u32_of_byte (fold_case a) - u32_of_byte (fold_case b)) in H by ring.
  pose proof (u32_of_byte_small (fold_case a)) as Ha.
  pose proof (u32_of_byte_small (fold_case b)) as Hb.
  destruct H as [q Hq]. change (2 ^ 32) with 4294967296 in Hq.
  apply u32_of_byte_inj. assert (q = 0) by lia. lia.
Qed.

Lemma fnv1a_step_byte_inj h a b :
  0 <= h < 2 ^ 32 ->
  Byte.eqb a x00 = false -> Byte.eqb b x00 = false ->
  fnv1a_step h a = fnv1a_step h b -> fold_case a = fold_case b.
Proof.
  intros Hh Za Zb. unfold fnv1a_step. cbv zeta. rewrite Za, Zb.
  unfold uint32. intros H.
  pose proof (u32_of_byte_range (fold_case a)) as Ha.
  pose proof (u32_of_byte_range (fold_case b)) as Hb.
  apply u32_of_byte_inj. apply (lxor_cancel_r _ _ h).
  rewrite !(Z.lxor_comm _ h).
  apply (affine_mod32_inj fnv1aPrime 0);
    [reflexivity | apply lxor_range32; assumption
     | apply lxor_range32; assumption |].
  rewrite !Z.add_0_r, !(Z.mul_comm fnv1aPrime). exact H.
Qed.

(** X16. Replacing one nonzero byte of an input by another nonzero byte
    leaves the hash unchanged exactly when the two bytes fold to the same
    value; any other single-byte substitution changes the identifier.
    This holds for both algorithms. *)
Theorem one_byte_substitution (l1 l2 : list byte) (a b : byte) :
  Byte.eqb a x00 = false -> Byte.eqb b x00 = false ->
  (DBJ2Hash (l1 ++ a :: l2) = DBJ2Hash (l1 ++ b :: l2)
   <-> fold_case a = fold_case b) /\
  (FNV1AHash (l1 ++ a :: l2) = FNV1AHash (l1 ++ b :: l2)
   <-> fold_case a = fold_case b).
Proof.
  intros Za Zb. rewrite !DBJ2Hash_app, !FNV1AHash_app. cbn [fold_left].
  pose proof (DBJ2Hash_range l1) as Hd. pose proof (FNV1AHash_range l1) as Hf.
  split; split.
  - intros H.
    apply (fold_step_inj dbj2_step) in H;
      [|intros h c; apply dbj2_step_range | apply dbj2_step_inj
       | apply dbj2_step_range, Hd | apply dbj2_step_range, Hd].
    exact (dbj2_step_byte_inj _ a b Hd Za Zb H).
  - intros H. f_equal. apply dbj2_step_same_fold; [congruence | exact H].
  - intros H.
    apply (fold_step_inj fnv1a_step) in H;
      [|intros h c; apply fnv1a_step_range | apply fnv1a_step_inj
       | apply fnv1a_step_range, Hf | apply fnv1a_step_range, Hf].
    exact (fnv1a_step_byte_inj _ a b Hf Za Zb H).
  - intros H. f_equal. apply fnv1a_step_same_fold; [congruence | exact H].
Qed.

Lemma one_byte_substitution_witness :
  DBJ2HashStr "NtOpenFile" <> DBJ2HashStr "NtOpenFilf" /\
  DBJ2HashStr "NtOpenFile" = DBJ2HashStr "NtOpenFilE".
Proof.
  split.
  - intros H.
    apply (proj1 (one_byte_substitution
                    (bytes_of_string "NtOpenFil") [] "e"%byte "f"%byte
                    eq_refl eq_refl)) in H.
    discriminate H.
  - apply (proj1 (one_byte_substitution
                    (bytes_of_string "NtOpenFil") [] "e"%byte "E"%byte
                    eq_refl eq_refl)).
    reflexivity.
Defined.

(** *** Critical sections of [GetHash] run by more than one caller *)

(** X17. When two callers resolve the same uncached string and both look
    it up before either stores it, then in either order the locks allow
    (store, store, check, check or store, check, store, check) the two
    stores and the two collision checks build the same cache and the same
    registry as a single [GetHash]; the second check registers nothing;
    and when the string collides with a registered one, the four lines of
    the report are printed twice where a single call prints them once. *)
Theorem overlapping_GetHash_same_string (st : state) (s : string) :
  GetHash_lookup s st = None ->
  let h := DBJ2HashStr s in
  let once := snd (GetHash s st) in
  let stores_first := detectHashCollision h s
                        (detectHashCollision h s
                           (GetHash_store s h (GetHash_store s h st))) in
  let one_by_one := detectHashCollision h s
                      (GetHash_store s h
                         (detectHashCollision h s (GetHash_store s h st))) in
  let report :=
    match collisionDetector st !! h with
    | Some e =>
        if String.eqb e s then []
        else [ ("OBF", [LogStr "Warning: Hash collision detected!"]);
               ("OBF", [LogStr "  Hash:"; LogU32 h]);
               ("OBF", [LogStr "  Existing string:"; LogStr e]);
               ("OBF", [LogStr "  New string:"; LogStr s]) ]
    | None => []
    end in
  debugLog once = debugLog st ++ report /\
  (HashCache stores_first = HashCache once /\
   collisionDetector stores_first = collisionDetector once /\
   debugLog stores_first = debugLog st ++ report ++ report) /\
  (HashCache one_by_one = HashCache once /\
   collisionDetector one_by_one = collisionDetector once /\
   debugLog one_by_one = debugLog st ++ report ++ report).
Proof.
  intros Hmiss h once stores_first one_by_one report.
  unfold GetHash_lookup in Hmiss.
  unfold once, stores_first, one_by_one.
  rewrite (GetHash_miss _ _ Hmiss). cbn [snd]. fold h.
  repeat (rewrite ?detect_cache, ?detect_registry, ?detect_log;
          cbn [GetHash_store HashCache collisionDetector debugLog]).
  rewrite !insert_insert_eq. unfold report.
  destruct (collisionDetector st !! h) as [e|] eqn:He.
  - rewrite ?He. rewrite <- !app_assoc. repeat split.
  - rewrite ?lookup_insert_eq, ?String.eqb_refl, ?app_nil_r. repeat split.
Qed.

Lemma overlapping_GetHash_same_string_witness :
  let st := run [CallGetHash "abc"] init in
  let h := DBJ2HashStr "ABC" in
  debugLog (detectHashCollision h "ABC"
              (GetHash_store "ABC" h
                 (detectHashCollision h "ABC" (GetHash_store "ABC" h st))))
  = [ ("OBF", [LogStr "Warning: Hash collision detected!"]);
      ("OBF", [LogStr "  Hash:"; LogU32 193450027]);
      ("OBF", [LogStr "  Existing string:"; LogStr "abc"]);
      ("OBF", [LogStr "  New string:"; LogStr "ABC"]);
      ("OBF", [LogStr "Warning: Hash collision detected!"]);
      ("OBF", [LogStr "  Hash:"; LogU32 193450027]);
      ("OBF", [LogStr "  Existing string:"; LogStr "abc"]);
      ("OBF", [LogStr "  New string:"; LogStr "ABC"]) ].
Proof.
  intros st h.
  assert (Hmiss : GetHash_lookup "ABC" st = None) by (vm_compute; reflexivity).
  destruct (overlapping_GetHash_same_string st "ABC" Hmiss)
    as (_ & _ & _ & _ & Hlog).
  unfold h. rewrite Hlog. vm_compute. reflexivity.
Defined.

(** X18. When [ClearHashCache] runs between the store and the collision
    check of a [GetHash] in progress, the check registers the string in
    the emptied registry while the cache stays empty: the statistics read
    0 entries and 1 unique hash, and the collisions count is held at 0 by
    the test of line 143.  The next [GetHash] of the same string caches
    it again, prints nothing, and the statistics read 1, 1, 0. *)
Theorem clear_between_store_and_check (st : state) (s : string) :
  let h := DBJ2HashStr s in
  let st' := detectHashCollision h s (ClearHashCache (GetHash_store s h st)) in
  HashCache st' = ∅ /\
  collisionDetector st' = {[ h := s ]} /\
  debugLog st' = debugLog st /\
  GetHashCacheStats st'
  = {| total_entries := 0; unique_hashes := 1; collisions := 0;
       cache_hit_ratio := 0 |} /\
  fst (GetHash s st') = h /\
  debugLog (snd (GetHash s st')) = debugLog st /\
  GetHashCacheStats (snd (GetHash s st'))
  = {| total_entries := 1; unique_hashes := 1; collisions := 0;
       cache_hit_ratio := 0 |}.
Proof.
  intros h st'.
  assert (E : st' = {| HashCache := ∅; collisionDetector := {[ h := s ]};
                       debugLog := debugLog st |}).
  { unfold st', detectHashCollision.
    cbn [ClearHashCache GetHash_store HashCache collisionDetector debugLog].
    rewrite lookup_empty. reflexivity. }
  rewrite E. cbn [HashCache collisionDetector debugLog].
  split; [reflexivity|]. split; [reflexivity|]. split; [reflexivity|].
  split.
  { unfold GetHashCacheStats. cbn [HashCache collisionDetector].
    rewrite map_size_singleton, map_size_empty. reflexivity. }
  rewrite GetHash_miss by apply lookup_empty. cbn [fst snd]. fold h.
  split; [reflexivity|].
  rewrite detect_log. unfold GetHashCacheStats.
  rewrite detect_cache, detect_registry.
  cbn [HashCache collisionDetector debugLog].
  rewrite lookup_singleton_eq, String.eqb_refl, app_nil_r.
  split; [reflexivity|].
  rewrite map_size_insert_None by apply lookup_empty.
  rewrite map_size_singleton, map_size_empty. reflexivity.
Qed.

End ObfFacts.

(** ** Properties of do_syscall.S *)

Module UnhookFacts.
Import Unhook.

(** *** Memory: bytes written and bytes read back *)

Lemma wrap64_small a : 0 <= a < 2 ^ 64 -> wrap64 a = a.
Proof. intros H. unfold wrap64. apply Z.mod_small. exact H. Qed.

Lemma wrap64_range a : 0 <= wrap64 a < 2 ^ 64.
Proof. unfold wrap64. apply Z.mod_pos_bound. lia. Qed.

Lemma load8_range f a : 0 <= load8 f a < 256.
Proof. unfold load8. apply Z.mod_pos_bound. lia. Qed.

Lemma load8_store8_same f a v : load8 (store8 f a v) a = v mod 256.
Proof.
  unfold load8, store8. rewrite Z.eqb_refl. apply Z.mod_mod. lia.
Qed.

Lemma load8_store8_other f a v x :
  wrap64 x <> wrap64 a -> load8 (store8 f a v) x = load8 f x.
Proof.
  intros H. unfold load8, store8.
  destruct (wrap64 x =? wrap64 a) eqn:E; [apply Z.eqb_eq in E; contradiction|].
  reflexivity.
Qed.

Lemma store_le_outside n : forall f a v x,
  0 <= a -> a + Z.of_nat n <= 2 ^ 64 -> 0 <= x < 2 ^ 64 ->
  x < a \/ a + Z.of_nat n <= x ->
  load8 (store_le n f a v) x = load8 f x.
Proof.
  induction n as [|n IH]; intros f a v x Ha Hn Hx Hout; [reflexivity|].
  cbn [store_le]. rewrite IH by lia.
  apply load8_store8_other. rewrite !wrap64_small by lia. lia.
Qed.

Lemma pow256_succ i : 0 <= i -> 256 ^ (i + 1) = 256 * 256 ^ i.
Proof. intros H. rewrite Z.pow_add_r by lia. lia. Qed.

Lemma div_pow256_succ v i : 0 <= i -> v / 256 / 256 ^ i = v / 256 ^ (i + 1).
Proof.
  intros H. rewrite pow256_succ by exact H.
  rewrite Z.div_div; [reflexivity | lia | apply Z.pow_pos_nonneg; lia].
Qed.

Lemma store_le_inside n : forall f a v i,
  0 <= a -> a + Z.of_nat n <= 2 ^ 64 -> 0 <= i < Z.of_nat n ->
  load8 (store_le n f a v) (a + i) = (v / 256 ^ i) mod 256.
Proof.
  induction n as [|n IH]; intros f a v i Ha Hn Hi; [lia|].
  cbn [store_le]. destruct (Z.eq_dec i 0) as [->|Hpos].
  - rewrite store_le_outside by lia.
    rewrite Z.add_0_r, load8_store8_same, Z.pow_0_r, Z.div_1_r. reflexivity.
  - replace (a + i) with (a + 1 + (i - 1)) by lia.
    rewrite IH by lia. rewrite div_pow256_succ by lia.
    replace (i - 1 + 1) with i by lia. reflexivity.
Qed.

Lemma load_le_range n : forall f a, 0 <= load_le n f a < 256 ^ Z.of_nat n.
Proof.
  induction n as [|n IH]; intros f a; [cbn; lia|].
  cbn [load_le]. rewrite Nat2Z.inj_succ, <- Z.add_1_r, pow256_succ by lia.
  pose proof (load8_range f a). pose proof (IH f (a + 1)). lia.
Qed.

Lemma load_le_byte n : forall f a i,
  0 <= i < Z.of_nat n ->
  (load_le n f a / 256 ^ i) mod 256 = load8 f (a + i).
Proof.
  induction n as [|n IH]; intros f a i Hi; [lia|].
  cbn [load_le]. pose proof (load8_range f a) as Hb.
  destruct (Z.eq_dec i 0) as [->|Hpos].
  - rewrite Z.pow_0_r, Z.div_1_r, Z.add_0_r.
    rewrite (Z.mul_comm 256), Z.mod_add by lia.
    apply Z.mod_small, Hb.
  - replace i with (i - 1 + 1) at 1 by lia.
    rewrite <- div_pow256_succ by lia.
    replace ((load8 f a + 256 * load_le n f (a + 1)) / 256)
      with (load_le n f (a + 1)).
    + rewrite IH by lia. f_equal. lia.
    + rewrite (Z.mul_comm 256), Z.div_add by lia.
      rewrite (Z.div_small (load8 f a)) by exact Hb. lia.
Qed.

Lemma load_le_ext n : forall f g a b,
  (forall i, 0 <= i < Z.of_nat n -> load8 f (a + i) = load8 g (b + i)) ->
  load_le n f a = load_le n g b.
Proof.
  induction n as [|n IH]; intros f g a b H; [reflexivity|].
  cbn [load_le]. f_equal.
  - specialize (H 0). rewrite !Z.add_0_r in H. apply H. lia.
  - f_equal. apply IH. intros i Hi.
    replace (a + 1 + i) with (a + (i + 1)) by lia.
    replace (b + 1 + i) with (b + (i + 1)) by lia. apply H. lia.
Qed.

Lemma load_le_of_bytes n : forall f a v,
  (forall i, 0 <= i < Z.of_nat n -> load8 f (a + i) = (v / 256 ^ i) mod 256) ->
  load_le n f a = v mod 256 ^ Z.of_nat n.
Proof.
  induction n as [|n IH]; intros f a v H.
  - cbn. symmetry. apply Z.mod_1_r.
  - cbn [load_le]. rewrite (IH f (a + 1) (v / 256)).
    + specialize (H 0). rewrite Z.add_0_r, Z.pow_0_r, Z.div_1_r in H.
      rewrite H by lia.
      rewrite Nat2Z.inj_succ, <- Z.add_1_r, pow256_succ by lia.
      symmetry. apply Z.rem_mul_r; [lia | apply Z.pow_pos_nonneg; lia].
    + intros i Hi. replace (a + 1 + i) with (a + (i + 1)) by lia.
      rewrite H by lia. rewrite div_pow256_succ by lia. reflexivity.
Qed.

(** *** [sub rcx, 4] followed by [jle]: a signed comparison with 4 *)

Lemma jle_after_sub m :
  0 <= regs m RCX < 2 ^ 64 ->
  jle_taken (sub_ri RCX 0x4 m) = (signed64 (regs m RCX) <=? 4).
Proof.
  intros Ha. unfold jle_taken, sub_ri. cbn [ZF SF OF].
  set (a := regs m RCX) in *.
  change (signed64 4) with 4.
  unfold signed64, wrap64.
  change (2 ^ 64) with 18446744073709551616 in *.
  change (2 ^ 63) with 9223372036854775808 in *.
  destruct (Z_lt_le_dec a 4) as [Hlt|Hge].
  - assert (Hr : (a - 4) mod 18446744073709551616 = a - 4 + 18446744073709551616).
    { symmetry. apply Z.mod_unique with (q := -1); lia. }
    rewrite Hr.
    destruct (a <? 9223372036854775808) eqn:E1; [|apply Z.ltb_ge in E1; lia].
    repeat match goal with
           | |- context [?x =? ?y] => destruct (Z.eqb_spec x y)
           | |- context [?x <=? ?y] => destruct (Z.leb_spec x y)
           | |- context [?x <? ?y] => destruct (Z.ltb_spec x y)
           end; cbn; first [reflexivity | lia].
  - rewrite (Z.mod_small (a - 4)) by lia.
    destruct (Z.ltb_spec a 9223372036854775808).
    all: repeat match goal with
           | |- context [?x =? ?y] => destruct (Z.eqb_spec x y)
           | |- context [?x <=? ?y] => destruct (Z.leb_spec x y)
           | |- context [?x <? ?y] => destruct (Z.ltb_spec x y)
           end; cbn; first [reflexivity | lia].
Qed.

(** *** [rep movsq] with DF clear, source above the destination *)

Lemma movsq_mem m :
  mem (movsq m) = store64 (mem m) (regs m RDI) (load64 (mem m) (regs m RSI)).
Proof. reflexivity. Qed.

Lemma movsq_byte_inside m i :
  0 <= regs m RDI -> regs m RDI + 8 <= 2 ^ 64 -> 0 <= i < 8 ->
  load8 (mem (movsq m)) (regs m RDI + i) = load8 (mem m) (regs m RSI + i).
Proof.
  intros Hd Hn Hi. rewrite movsq_mem. unfold store64, load64.
  rewrite store_le_inside by (cbn; lia).
  apply load_le_byte. cbn. lia.
Qed.

Lemma movsq_byte_outside m x :
  0 <= regs m RDI -> regs m RDI + 8 <= 2 ^ 64 -> 0 <= x < 2 ^ 64 ->
  x < regs m RDI \/ regs m RDI + 8 <= x ->
  load8 (mem (movsq m)) x = load8 (mem m) x.
Proof.
  intros Hd Hn Hx Hout. rewrite movsq_mem. unfold store64.
  apply store_le_outside; cbn; lia.
Qed.

Lemma movsq_regs m :
  DF m = false ->
  regs (movsq m) RSI = wrap64 (regs m RSI + 8) /\
  regs (movsq m) RDI = wrap64 (regs m RDI + 8) /\
  (forall r, r <> RSI -> r <> RDI -> regs (movsq m) r = regs m r) /\
  DF (movsq m) = false.
Proof.
  intros Hdf. unfold movsq. rewrite Hdf. repeat split; [|exact Hdf].
  intros r Hs Hd. destruct r; first [reflexivity | contradiction].
Qed.

(** After [n] iterations: the [8 * n] bytes from the destination on hold
    what the source held before the copy, every other byte is as it was,
    rcx has gone down by [n], and no register other than rsi, rdi and rcx
    has changed. *)
Lemma rep_movsq_n_spec n : forall m,
  DF m = false ->
  0 <= regs m RCX < 2 ^ 64 ->
  0 <= regs m RDI -> regs m RDI + 8 <= regs m RSI ->
  regs m RSI + 8 * Z.of_nat n < 2 ^ 64 ->
  let m' := rep_movsq_n n m in
  (forall x, regs m RDI <= x < regs m RDI + 8 * Z.of_nat n ->
     load8 (mem m') x = load8 (mem m) (x + (regs m RSI - regs m RDI))) /\
  (forall x, 0 <= x < 2 ^ 64 ->
     x < regs m RDI \/ regs m RDI + 8 * Z.of_nat n <= x ->
     load8 (mem m') x = load8 (mem m) x) /\
  regs m' RCX = wrap64 (regs m RCX - Z.of_nat n) /\
  (forall r, r <> RSI -> r <> RDI -> r <> RCX -> regs m' r = regs m r).
Proof.
  induction n as [|n IH]; intros m Hdf Hc Hd Hsd Hs.
  - cbn [rep_movsq_n]. repeat split.
    + intros x Hx. lia.
    + rewrite Z.sub_0_r. symmetry. apply wrap64_small, Hc.
  - cbn [rep_movsq_n].
    destruct (movsq_regs m Hdf) as (Ms & Md & Mo & Mdf).
    set (m1 := movsq m) in *.
    set (m2 := set_reg RCX (wrap64 (regs m1 RCX - 1)) m1).
    assert (Hs2 : regs m2 RSI = regs m RSI + 8).
    { change (regs m2 RSI) with (regs m1 RSI). rewrite Ms. apply wrap64_small. lia. }
    assert (Hd2 : regs m2 RDI = regs m RDI + 8).
    { change (regs m2 RDI) with (regs m1 RDI). rewrite Md. apply wrap64_small. lia. }
    assert (Hc2 : regs m2 RCX = wrap64 (regs m RCX - 1)).
    { change (regs m2 RCX) with (wrap64 (regs m1 RCX - 1)).
      rewrite (Mo RCX) by discriminate. reflexivity. }
    assert (Hm2 : mem m2 = mem m1) by reflexivity.
    destruct (IH m2) as (Iin & Iout & Irc & Ior).
    { exact Mdf. }
    { rewrite Hc2. apply wrap64_range. }
    { lia. }
    { lia. }
    { lia. }
    rewrite Hs2, Hd2, Hm2 in *. fold m1 in Iin, Iout.
    split; [|split; [|split]].
    + intros x Hx.
      destruct (Z_lt_le_dec x (regs m RDI + 8)) as [Hlo|Hhi].
      * rewrite Iout by lia.
        replace x with (regs m RDI + (x - regs m RDI)) at 1 by lia.
        unfold m1. rewrite movsq_byte_inside by lia. f_equal. lia.
      * rewrite Iin by lia.
        replace (x + (regs m RSI + 8 - (regs m RDI + 8)))
          with (x + (regs m RSI - regs m RDI)) by lia.
        unfold m1. apply movsq_byte_outside; lia.
    + intros x Hx Hout. rewrite Iout by lia.
      unfold m1. apply movsq_byte_outside; lia.
    + rewrite Irc, Hc2. unfold wrap64.
      rewrite Zminus_mod_idemp_l. f_equal. lia.
    + intros r Hr1 Hr2 Hr3. rewrite Ior by assumption.
      transitivity (regs m1 r).
      * destruct r; first [reflexivity | contradiction].
      * apply Mo; assumption.
Qed.

(** *** The routine on a well-formed entry state *)

Section DoSyscall.

Variable m : machine.

Let rsp : Z := regs m RSP.
Let count : Z := signed64 (regs m RDX).
Let spilled : Z := Z.max 0 (count - 4).

(** Registers are 64 bits wide; the direction flag is clear on entry, as
    the calling convention has it; the two save slots below rsp and the
    argument words above it lie inside the address space. *)
Hypothesis regs_wf : forall r, 0 <= regs m r < 2 ^ 64.
Hypothesis df_clear : DF m = false.
Hypothesis stack_low : 0x10 <= rsp.
Hypothesis stack_high : rsp + 0x38 + 8 * spilled < 2 ^ 64.

Let m0 : machine := do_syscall_marshal m.
Let m1 : machine := sub_ri RCX 0x4 m0.
Let m2 : machine := lea RDI RSP 0x28 (lea RSI RSP 0x38 m1).

Lemma marshal_mem :
  mem m0 = store64 (store64 (mem m) (rsp - 0x8) (regs m RSI))
             (rsp - 0x10) (regs m RDI).
Proof.
  unfold m0, do_syscall_marshal, mov_mr. cbn [regs mem set_mem set_reg mov_rr32 mov_rr mov_rm].
  fold rsp. rewrite !wrap64_small by lia. reflexivity.
Qed.

Lemma marshal_outside x :
  0 <= x < 2 ^ 64 -> x < rsp - 0x10 \/ rsp <= x ->
  load8 (mem m0) x = load8 (mem m) x.
Proof.
  intros Hx Hout. rewrite marshal_mem. unfold store64.
  rewrite !store_le_outside by (cbn; lia). reflexivity.
Qed.

Lemma marshal_slot_rsi i :
  0 <= i < 8 ->
  load8 (mem m0) (rsp - 0x8 + i) = (regs m RSI / 256 ^ i) mod 256.
Proof.
  intros Hi. rewrite marshal_mem. unfold store64.
  rewrite store_le_outside by (cbn; lia).
  apply store_le_inside; cbn; lia.
Qed.

Lemma marshal_slot_rdi i :
  0 <= i < 8 ->
  load8 (mem m0) (rsp - 0x10 + i) = (regs m RDI / 256 ^ i) mod 256.
Proof.
  intros Hi. rewrite marshal_mem. unfold store64.
  apply store_le_inside; cbn; lia.
Qed.

Lemma jle_decides : jle_taken m1 = (count <=? 4).
Proof. unfold m1. rewrite jle_after_sub; [reflexivity | apply regs_wf]. Qed.

Lemma entry_skip :
  count <= 4 -> do_syscall_entry m = m1.
Proof.
  intros Hc. unfold do_syscall_entry. cbv zeta. fold m0. fold m1.
  rewrite jle_decides. apply Z.leb_le in Hc. rewrite Hc. reflexivity.
Qed.

Lemma count_positive : 4 < count -> regs m RDX = count /\ count < 2 ^ 63.
Proof.
  unfold count, signed64. pose proof (regs_wf RDX) as H.
  change (2 ^ 64) with 18446744073709551616 in *.
  change (2 ^ 63) with 9223372036854775808 in *.
  destruct (Z.ltb_spec (regs m RDX) 9223372036854775808); lia.
Qed.

Lemma entry_spill :
  4 < count -> do_syscall_entry m = rep_movsq_n (Z.to_nat (count - 4)) m2.
Proof.
  intros Hc. unfold do_syscall_entry. cbv zeta. fold m0. fold m1.
  rewrite jle_decides.
  destruct (Z.leb_spec count 4) as [Hle|_]; [lia|].
  unfold do_syscall_spill, rep_movsq. cbv zeta. fold m2. f_equal. f_equal.
  destruct (count_positive Hc) as [Hrdx Hlt].
  change (regs m2 RCX) with (wrap64 (regs m RDX - 4)).
  rewrite Hrdx. apply wrap64_small.
  change (2 ^ 64) with 18446744073709551616.
  change (2 ^ 63) with 9223372036854775808 in Hlt. lia.
Qed.

Lemma spill_setup :
  4 < count ->
  DF m2 = false /\ 0 <= regs m2 RCX < 2 ^ 64 /\
  regs m2 RCX = count - 4 /\
  regs m2 RDI = rsp + 0x28 /\ regs m2 RSI = rsp + 0x38 /\
  mem m2 = mem m0 /\ spilled = count - 4 /\
  Z.of_nat (Z.to_nat (count - 4)) = count - 4.
Proof.
  intros Hc. destruct (count_positive Hc) as [Hrdx Hlt].
  assert (Hsp : spilled = count - 4) by (unfold spilled; lia).
  pose proof stack_high as Hh. rewrite Hsp in Hh.
  change (2 ^ 63) with 9223372036854775808 in Hlt.
  change (2 ^ 64) with 18446744073709551616 in *.
  split; [exact df_clear|].
  change (regs m2 RCX) with (wrap64 (regs m RDX - 4)).
  change (regs m2 RDI) with (wrap64 (rsp + 0x28)).
  change (regs m2 RSI) with (wrap64 (rsp + 0x38)).
  rewrite Hrdx. unfold wrap64.
  change (2 ^ 64) with 18446744073709551616.
  rewrite !Z.mod_small by lia.
  repeat split; lia.
Qed.

(** Up to the [syscall] instruction the stack pointer stays put and the
    sixteen bytes of the two save slots are not written again. *)
Lemma entry_frame :
  regs (do_syscall_entry m) RSP = rsp /\
  (forall x, rsp - 0x10 <= x < rsp ->
     load8 (mem (do_syscall_entry m)) x = load8 (mem m0) x).
Proof.
  destruct (Z_le_gt_dec count 4) as [Hle|Hgt].
  - rewrite (entry_skip Hle). split; reflexivity.
  - assert (Hc : 4 < count) by lia.
    rewrite (entry_spill Hc).
    destruct (spill_setup Hc) as (Hdf & Hrc & _ & Hd & Hs & Hm & Hsp & Hn).
    pose proof stack_high as Hh. rewrite Hsp in Hh.
    destruct (rep_movsq_n_spec (Z.to_nat (count - 4)) m2) as (_ & Iout & _ & Ior);
      try assumption; rewrite ?Hd, ?Hs, ?Hn; try lia.
    split.
    + rewrite Ior by discriminate. reflexivity.
    + intros x Hx. rewrite Iout, Hm; [reflexivity | lia | lia].
Qed.

(** C2. With the argument count read as a signed 64-bit number: when it
    is at most 4 the routine reaches [syscall] straight from the
    subtraction, having written nothing but the two save slots; when it
    is above 4 the routine runs exactly count - 4 [movsq] steps, after
    which the count - 4 quadwords from rsp + 0x28 on hold, in order, what
    the caller had from rsp + 0x38 on, every byte outside that
    destination and the save slots is as it was, and rcx is zero. *)
Theorem do_syscall_spill_exact :
  let m' := do_syscall_entry m in
  (count <= 4 ->
   m' = sub_ri RCX 0x4 (do_syscall_marshal m) /\
   (forall x, 0 <= x < 2 ^ 64 -> x < rsp - 0x10 \/ rsp <= x ->
      load8 (mem m') x = load8 (mem m) x)) /\
  (4 < count ->
   m' = rep_movsq_n (Z.to_nat (count - 4))
          (lea RDI RSP 0x28
             (lea RSI RSP 0x38 (sub_ri RCX 0x4 (do_syscall_marshal m)))) /\
   (forall i, 0 <= i < count - 4 ->
      load64 (mem m') (rsp + 0x28 + 8 * i) = load64 (mem m) (rsp + 0x38 + 8 * i)) /\
   (forall x, 0 <= x < 2 ^ 64 -> x < rsp - 0x10 \/ rsp <= x ->
      x < rsp + 0x28 \/ rsp + 0x28 + 8 * (count - 4) <= x ->
      load8 (mem m') x = load8 (mem m) x) /\
   regs m' RCX = 0).
Proof.
  intros m'. split.
  - intros Hle. unfold m'. rewrite (entry_skip Hle). split; [reflexivity|].
    intros x Hx Hout. change (mem m1) with (mem m0).
    apply marshal_outside; assumption.
  - intros Hc. unfold m'. rewrite (entry_spill Hc).
    destruct (spill_setup Hc) as (Hdf & Hrc & Hrcx & Hd & Hs & Hm & Hsp & Hn).
    pose proof stack_high as Hh. rewrite Hsp in Hh.
    destruct (rep_movsq_n_spec (Z.to_nat (count - 4)) m2) as (Iin & Iout & Irc & _);
      try assumption; rewrite ?Hd, ?Hs, ?Hn; try lia.
    rewrite Hd, Hs, Hn, Hm in *.
    split; [reflexivity|]. split; [|split].
    + intros i Hi. unfold load64. apply load_le_ext. intros j Hj.
      cbn in Hj. rewrite Iin by lia.
      rewrite marshal_outside by lia. f_equal. lia.
    + intros x Hx Hslots Hout. rewrite Iout by lia.
      apply marshal_outside; assumption.
    + rewrite Irc, Hrcx, Z.sub_diag. reflexivity.
Qed.

(** C9. If the kernel transition hands back the stack pointer it was
    given and leaves the two save slots alone, then at the [syscall]
    instruction the slots at rsp - 8 and rsp - 0x10 hold the entry values
    of rsi and rdi, on return rsi and rdi have their entry values again,
    and rax is what the kernel transition left in it. *)
Theorem do_syscall_preserves_scratch (kernel : machine -> machine) :
  let mE := do_syscall_entry m in
  regs (kernel mE) RSP = regs mE RSP ->
  (forall x, rsp - 0x10 <= x < rsp ->
     load8 (mem (kernel mE)) x = load8 (mem mE) x) ->
  let m' := do_syscall kernel m in
  load64 (mem mE) (rsp - 0x8) = regs m RSI /\
  load64 (mem mE) (rsp - 0x10) = regs m RDI /\
  regs m' RSI = regs m RSI /\
  regs m' RDI = regs m RDI /\
  regs m' RAX = regs (kernel mE) RAX.
Proof.
  intros mE Hksp Hkmem m'.
  destruct entry_frame as [Hsp Hslots]. fold mE in Hsp, Hslots.
  assert (Hsi : forall g,
             (forall x, rsp - 0x10 <= x < rsp -> load8 g x = load8 (mem mE) x) ->
             load64 g (rsp - 0x8) = regs m RSI).
  { intros g Hg. unfold load64.
    rewrite (load_le_of_bytes 8 g (rsp - 0x8) (regs m RSI)).
    - apply Z.mod_small, regs_wf.
    - intros i Hi. cbn in Hi.
      rewrite Hg, Hslots by lia. apply marshal_slot_rsi. exact Hi. }
  assert (Hdi : forall g,
             (forall x, rsp - 0x10 <= x < rsp -> load8 g x = load8 (mem mE) x) ->
             load64 g (rsp - 0x10) = regs m RDI).
  { intros g Hg. unfold load64.
    rewrite (load_le_of_bytes 8 g (rsp - 0x10) (regs m RDI)).
    - apply Z.mod_small, regs_wf.
    - intros i Hi. cbn in Hi.
      rewrite Hg, Hslots by lia. apply marshal_slot_rdi. exact Hi. }
  split; [apply Hsi; reflexivity|]. split; [apply Hdi; reflexivity|].
  unfold m', do_syscall. cbv zeta. fold mE.
  unfold ret, mov_rm. cbn [regs mem set_reg reg_index Z.eqb Pos.eqb].
  rewrite Hksp, Hsp. rewrite !wrap64_small by lia.
  split; [apply Hsi, Hkmem|]. split; [apply Hdi, Hkmem|]. reflexivity.
Qed.

Lemma reg_index_inj r r' : reg_index r = reg_index r' -> r = r'.
Proof. destruct r, r'; intros H; first [reflexivity | discriminate H]. Qed.

Lemma set_reg_other dst v (s : machine) r :
  r <> dst -> regs (set_reg dst v s) r = regs s r.
Proof.
  intros Hr. cbn [set_reg regs].
  destruct (Z.eqb_spec (reg_index r) (reg_index dst)) as [E|_]; [|reflexivity].
  apply reg_index_inj in E. contradiction.
Qed.

Lemma sub_ri_other dst imm (s : machine) r :
  r <> dst -> regs (sub_ri dst imm s) r = regs s r.
Proof.
  intros Hr. unfold sub_ri. cbn [regs].
  destruct (Z.eqb_spec (reg_index r) (reg_index dst)) as [E|_]; [|reflexivity].
  apply reg_index_inj in E. contradiction.
Qed.

(** Outside rsi, rdi and rcx the registers at [syscall] are those set up
    by lines 5-15, on either path. *)
Lemma entry_regs r :
  r <> RSI -> r <> RDI -> r <> RCX ->
  regs (do_syscall_entry m) r = regs m0 r.
Proof.
  intros H1 H2 H3. destruct (Z_le_gt_dec count 4) as [Hle|Hgt].
  - rewrite (entry_skip Hle). unfold m1. apply sub_ri_other. exact H3.
  - assert (Hc : 4 < count) by lia.
    rewrite (entry_spill Hc).
    destruct (spill_setup Hc) as (Hdf & Hrc & _ & Hd & Hs & Hm & Hsp & Hn).
    pose proof stack_high as Hh. rewrite Hsp in Hh.
    destruct (rep_movsq_n_spec (Z.to_nat (count - 4)) m2) as (_ & _ & _ & Ior);
      try assumption; rewrite ?Hd, ?Hs, ?Hn; try lia.
    rewrite Ior by assumption.
    unfold m2, lea. rewrite !set_reg_other by assumption.
    unfold m1. apply sub_ri_other. exact H3.
Qed.

Lemma marshal_load64 a :
  rsp <= a -> a + 8 <= 2 ^ 64 ->
  load64 (mem m0) (wrap64 a) = load64 (mem m) a.
Proof.
  intros Hlo Hhi. rewrite wrap64_small by lia. unfold load64.
  apply load_le_ext. intros i Hi. cbn in Hi. apply marshal_outside; lia.
Qed.

(** X13. At the [syscall] instruction, whatever the argument count: eax
    holds the low 32 bits of the call number passed in rcx (rax is
    zero-extended), r10 and rdx hold the first two arguments passed in r8
    and r9, r8 and r9 hold the quadwords the caller had at rsp + 0x28 and
    rsp + 0x30, read before any spill overwrites them, and rsp, rbx, rbp
    and r11 to r15 are untouched. *)
Theorem do_syscall_registers_at_syscall :
  let mE := do_syscall_entry m in
  regs mE RAX = regs m RCX mod 2 ^ 32 /\
  regs mE R10 = regs m R8 /\
  regs mE RDX = regs m R9 /\
  regs mE R8 = load64 (mem m) (rsp + 0x28) /\
  regs mE R9 = load64 (mem m) (rsp + 0x30) /\
  (forall r, In r [RSP; RBX; RBP; R11; R12; R13; R14; R15] ->
             regs mE r = regs m r).
Proof.
  intros mE. unfold mE.
  pose proof stack_high as Hh. unfold spilled in Hh.
  rewrite !entry_regs by discriminate.
  repeat split.
  - change (regs m0 R8) with (load64 (mem m0) (wrap64 (rsp + 0x28))).
    apply marshal_load64; lia.
  - change (regs m0 R9) with (load64 (mem m0) (wrap64 (rsp + 0x30))).
    apply marshal_load64; lia.
  - intros r Hr. rewrite entry_regs.
    + cbn [In] in Hr. decompose [or] Hr; subst; first [reflexivity | contradiction].
    + intros ->. cbn [In] in Hr. decompose [or] Hr; discriminate || contradiction.
    + intros ->. cbn [In] in Hr. decompose [or] Hr; discriminate || contradiction.
    + intros ->. cbn [In] in Hr. decompose [or] Hr; discriminate || contradiction.
Qed.

(** X14. If the kernel transition hands back the stack pointer it was
    given, then on return rsp is its entry value plus 8 (the return
    address popped, nothing else left on the stack), memory is exactly as
    the kernel left it, and so is every register other than rsi, rdi and
    rsp. *)
Theorem do_syscall_returns (kernel : machine -> machine) :
  let mE := do_syscall_entry m in
  regs (kernel mE) RSP = regs mE RSP ->
  let m' := do_syscall kernel m in
  regs m' RSP = rsp + 8 /\
  mem m' = mem (kernel mE) /\
  (forall r, r <> RSI -> r <> RDI -> r <> RSP ->
             regs m' r = regs (kernel mE) r).
Proof.
  intros mE Hksp m'.
  destruct entry_frame as [Hsp _]. fold mE in Hsp.
  pose proof stack_high as Hh. unfold spilled in Hh.
  unfold m', do_syscall. cbv zeta. fold mE.
  split; [|split].
  - unfold ret, mov_rm. cbn [regs set_reg reg_index Z.eqb Pos.eqb].
    rewrite Hksp, Hsp. apply wrap64_small. lia.
  - reflexivity.
  - intros r H1 H2 H3. destruct r; first [contradiction | reflexivity].
Qed.

End DoSyscall.

(** *** The two theorems on the sample entry state *)

(** A closed chain of integer comparisons, decided by evaluation. *)
Ltac closed_bounds :=
  vm_compute; repeat split; first [reflexivity | intros H; discriminate H].

Lemma sample_machine_wf :
  (forall r, 0 <= regs sample_machine r < 2 ^ 64) /\
  DF sample_machine = false /\
  0x10 <= regs sample_machine RSP /\
  regs sample_machine RSP + 0x38
    + 8 * Z.max 0 (signed64 (regs sample_machine RDX) - 4) < 2 ^ 64 /\
  4 < signed64 (regs sample_machine RDX).
Proof.
  split; [intros r; destruct r; closed_bounds|].
  split; [reflexivity|]. closed_bounds.
Defined.

Lemma do_syscall_spill_exact_witness :
  let rsp := regs sample_machine RSP in
  4 < signed64 (regs sample_machine RDX) /\
  load64 (mem (do_syscall_entry sample_machine)) (rsp + 0x28 + 8 * 0)
  = load64 (mem sample_machine) (rsp + 0x38 + 8 * 0) /\
  load64 (mem (do_syscall_entry sample_machine)) (rsp + 0x28 + 8 * 1)
  = load64 (mem sample_machine) (rsp + 0x38 + 8 * 1) /\
  load64 (mem sample_machine) (rsp + 0x38 + 8 * 0) = 107 /\
  load64 (mem sample_machine) (rsp + 0x38 + 8 * 1) = 108.
Proof.
  intros rsp.
  destruct sample_machine_wf as (Hwf & Hdf & Hlo & Hhi & Hcount).
  split; [exact Hcount|].
  destruct (do_syscall_spill_exact sample_machine Hwf Hdf Hlo Hhi)
    as [_ Hspill].
  destruct (Hspill Hcount) as (_ & Hcopy & _).
  assert (H0 : 0 <= 0 < signed64 (regs sample_machine RDX) - 4) by closed_bounds.
  assert (H1 : 0 <= 1 < signed64 (regs sample_machine RDX) - 4) by closed_bounds.
  split; [exact (Hcopy 0 H0)|]. split; [exact (Hcopy 1 H1)|].
  split; vm_compute; reflexivity.
Defined.

Lemma echo_kernel_frame m :
  regs (echo_kernel m) RSP = regs m RSP /\ mem (echo_kernel m) = mem m.
Proof. split; reflexivity. Qed.

Lemma do_syscall_preserves_scratch_witness :
  let m' := do_syscall echo_kernel sample_machine in
  (regs m' RSI = regs sample_machine RSI /\
   regs m' RDI = regs sample_machine RDI /\
   regs m' RAX = regs (echo_kernel (do_syscall_entry sample_machine)) RAX) /\
  regs sample_machine RSI = 0x5151 /\
  regs sample_machine RDI = 0xD1D1 /\
  regs (echo_kernel (do_syscall_entry sample_machine)) RAX = 107.
Proof.
  intros m'.
  destruct sample_machine_wf as (Hwf & Hdf & Hlo & Hhi & _).
  split.
  - destruct (do_syscall_preserves_scratch sample_machine Hwf Hdf Hlo Hhi
                echo_kernel) as (_ & _ & Hsi & Hdi & Hax).
    + apply echo_kernel_frame.
    + intros x _.
      destruct (echo_kernel_frame (do_syscall_entry sample_machine)) as [_ Hm].
      rewrite Hm. reflexivity.
    + split; [exact Hsi|]. split; [exact Hdi|]. exact Hax.
  - repeat split; vm_compute; reflexivity.
Defined.

Lemma do_syscall_registers_at_syscall_witness :
  let mE := do_syscall_entry sample_machine in
  regs mE RAX = regs sample_machine RCX mod 2 ^ 32 /\
  regs mE R8 = load64 (mem sample_machine) (regs sample_machine RSP + 0x28) /\
  load64 (mem sample_machine) (regs sample_machine RSP + 0x28) = 105.
Proof.
  intros mE.
  destruct sample_machine_wf as (Hwf & Hdf & Hlo & Hhi & _).
  destruct (do_syscall_registers_at_syscall sample_machine Hwf Hdf Hlo Hhi)
    as (Hax & _ & _ & H8 & _).
  split; [exact Hax|]. split; [exact H8|]. vm_compute. reflexivity.
Defined.

Lemma do_syscall_returns_witness :
  regs (do_syscall echo_kernel sample_machine) RSP
  = regs sample_machine RSP + 8.
Proof.
  destruct sample_machine_wf as (Hwf & Hdf & Hlo & Hhi & _).
  destruct (do_syscall_returns sample_machine Hwf Hdf Hlo Hhi echo_kernel)
    as (Hsp & _).
  - apply echo_kernel_frame.
  - exact Hsp.
Defined.

(** *** Entry with the direction flag set *)

Lemma set_reg_frame dst v (s : machine) :
  mem (set_reg dst v s) = mem s /\ DF (set_reg dst v s) = DF s.
Proof. split; reflexivity. Qed.

Lemma rep_movsq_n_DF n : forall s, DF (rep_movsq_n n s) = DF s.
Proof.
  induction n as [|n IH]; intros s; [reflexivity|].
  cbn [rep_movsq_n]. rewrite IH. reflexivity.
Qed.

Lemma movsq_regs_down (s : machine) :
  DF s = true ->
  regs (movsq s) RDI = wrap64 (regs s RDI + -8) /\ DF (movsq s) = true.
Proof. intros Hdf. unfold movsq. rewrite Hdf. split; [reflexivity | exact Hdf]. Qed.

(** With DF set the destination pointer walks downwards, so nothing at or
    above the first destination quadword's end is written. *)
Lemma rep_movsq_n_down n : forall s,
  DF s = true ->
  0 <= regs s RDI -> regs s RDI + 8 <= 2 ^ 64 ->
  8 * Z.of_nat n <= regs s RDI + 8 ->
  forall x, regs s RDI + 8 <= x < 2 ^ 64 ->
    load8 (mem (rep_movsq_n n s)) x = load8 (mem s) x.
Proof.
  induction n as [|n IH]; intros s Hdf Hd Hhi Hn x Hx; [reflexivity|].
  cbn [rep_movsq_n].
  destruct (movsq_regs_down s Hdf) as (Md & Mdf).
  set (s1 := movsq s) in *.
  set (s2 := set_reg RCX (wrap64 (regs s1 RCX - 1)) s1).
  assert (Hstep : load8 (mem s2) x = load8 (mem s) x).
  { change (mem s2) with (mem s1). unfold s1.
    apply movsq_byte_outside; lia. }
  destruct n as [|n'].
  - exact Hstep.
  - assert (Hd2 : regs s2 RDI = regs s RDI - 8).
    { change (regs s2 RDI) with (regs s1 RDI). rewrite Md.
      apply wrap64_small. lia. }
    rewrite <- Hstep. apply IH.
    + exact Mdf.
    + rewrite Hd2. lia.
    + rewrite Hd2. lia.
    + rewrite Hd2. lia.
    + rewrite Hd2. lia.
Qed.

Section DoSyscallDirectionSet.

Variable m : machine.

Let rsp : Z := regs m RSP.
Let count : Z := signed64 (regs m RDX).

Hypothesis regs_wf : forall r, 0 <= regs m r < 2 ^ 64.
Hypothesis df_set : DF m = true.
Hypothesis stack_low : 0x10 <= rsp.
Hypothesis stack_high : rsp + 0x38 + 8 * Z.max 0 (count - 4) < 2 ^ 64.
Hypothesis spill_fits : 8 * (count - 4) <= rsp + 0x30.
Hypothesis count_above_4 : 4 < count.

(** X15. The routine never clears the direction flag and depends on
    finding it clear.  Entered with DF set and more than four arguments,
    it still moves the fifth argument to rsp + 0x28, but every byte from
    rsp + 0x30 upwards is left as it was: the slot where the kernel looks
    for the sixth argument keeps the caller's quadword at rsp + 0x30
    instead of receiving the one at rsp + 0x40. *)
Theorem do_syscall_needs_df_clear :
  let mE := do_syscall_entry m in
  DF mE = true /\
  load64 (mem mE) (rsp + 0x28) = load64 (mem m) (rsp + 0x38) /\
  (forall x, rsp + 0x30 <= x < 2 ^ 64 -> load8 (mem mE) x = load8 (mem m) x) /\
  load64 (mem mE) (rsp + 0x30) = load64 (mem m) (rsp + 0x30).
Proof.
  intros mE. unfold mE.
  rewrite (entry_spill m regs_wf count_above_4). fold rsp count.
  set (s0 := do_syscall_marshal m).
  set (s2 := lea RDI RSP 0x28 (lea RSI RSP 0x38 (sub_ri RCX 0x4 s0))).
  pose proof stack_high as Hh.
  assert (Hmax : Z.max 0 (count - 4) = count - 4) by lia. rewrite Hmax in Hh.
  pose proof spill_fits as Hfit. pose proof count_above_4 as Hc.
  change (2 ^ 64) with 18446744073709551616 in *.
  assert (Hdf2 : DF s2 = true) by exact df_set.
  assert (Hd2 : regs s2 RDI = rsp + 0x28).
  { change (regs s2 RDI) with (wrap64 (rsp + 0x28)). apply wrap64_small.
    change (2 ^ 64) with 18446744073709551616. lia. }
  assert (Hs2 : regs s2 RSI = rsp + 0x38).
  { change (regs s2 RSI) with (wrap64 (rsp + 0x38)). apply wrap64_small.
    change (2 ^ 64) with 18446744073709551616. lia. }
  assert (Hm2 : mem s2 = mem s0) by reflexivity.
  assert (Hout : forall x, rsp <= x < 18446744073709551616 ->
                   load8 (mem s0) x = load8 (mem m) x).
  { intros x Hx. unfold s0.
    apply (marshal_outside m stack_low stack_high).
    - change (2 ^ 64) with 18446744073709551616. lia.
    - right. exact (proj1 Hx). }
  assert (Hn : Z.of_nat (Z.to_nat (count - 4)) = count - 4) by lia.
  (* the first [movsq], then the rest of the repetition *)
  destruct (Z.to_nat (count - 4)) as [|n] eqn:En; [lia|].
  cbn [rep_movsq_n].
  destruct (movsq_regs_down s2 Hdf2) as (Md & Mdf).
  set (s3 := set_reg RCX (wrap64 (regs (movsq s2) RCX - 1)) (movsq s2)).
  assert (Hm3 : mem s3 = mem (movsq s2)) by apply set_reg_frame.
  assert (Hdf3 : DF s3 = true).
  { unfold s3. rewrite (proj2 (set_reg_frame _ _ _)). exact Mdf. }
  assert (Hd3 : regs s3 RDI = rsp + 0x20).
  { unfold s3. rewrite set_reg_other by discriminate. rewrite Md, Hd2.
    unfold wrap64. change (2 ^ 64) with 18446744073709551616.
    rewrite Z.mod_small by lia. lia. }
  assert (Hrest : forall x, rsp + 0x28 <= x < 18446744073709551616 ->
                    load8 (mem (rep_movsq_n n s3)) x = load8 (mem (movsq s2)) x).
  { intros x Hx. rewrite <- Hm3.
    apply rep_movsq_n_down.
    - exact Hdf3.
    - rewrite Hd3. lia.
    - rewrite Hd3. change (2 ^ 64) with 18446744073709551616. lia.
    - rewrite Hd3. lia.
    - rewrite Hd3. change (2 ^ 64) with 18446744073709551616. lia. }
  assert (Hhigh : forall x, rsp + 0x30 <= x < 18446744073709551616 ->
                    load8 (mem (rep_movsq_n n s3)) x = load8 (mem m) x).
  { intros x Hx. rewrite Hrest by lia.
    rewrite movsq_byte_outside.
    - rewrite Hm2. apply Hout. lia.
    - rewrite Hd2. lia.
    - rewrite Hd2. change (2 ^ 64) with 18446744073709551616. lia.
    - change (2 ^ 64) with 18446744073709551616. lia.
    - rewrite Hd2. lia. }
  split; [|split; [|split]].
  - rewrite rep_movsq_n_DF. exact Hdf3.
  - unfold load64. apply load_le_ext. intros i Hi. cbn in Hi.
    rewrite Hrest by lia.
    rewrite <- Hd2. rewrite movsq_byte_inside.
    + rewrite Hs2, Hm2. apply Hout. lia.
    + rewrite Hd2. lia.
    + rewrite Hd2. change (2 ^ 64) with 18446744073709551616. lia.
    + exact Hi.
  - exact Hhigh.
  - unfold load64. apply load_le_ext. intros i Hi. cbn in Hi.
    apply Hhigh. lia.
Qed.

End DoSyscallDirectionSet.

Lemma do_syscall_needs_df_clear_witness :
  let rsp := regs sample_machine_df RSP in
  load64 (mem (do_syscall_entry sample_machine_df)) (rsp + 0x30)
  = load64 (mem sample_machine_df) (rsp + 0x30) /\
  load64 (mem sample_machine_df) (rsp + 0x30) = 106 /\
  load64 (mem sample_machine_df) (rsp + 0x40) = 108.
Proof.
  intros rsp.
  assert (Hwf : forall r, 0 <= regs sample_machine_df r < 2 ^ 64)
    by (intros r; destruct r; closed_bounds).
  assert (Hdf : DF sample_machine_df = true) by reflexivity.
  assert (Hlo : 0x10 <= regs sample_machine_df RSP) by closed_bounds.
  assert (Hhi : regs sample_machine_df RSP + 0x38
                + 8 * Z.max 0 (signed64 (regs sample_machine_df RDX) - 4)
                < 2 ^ 64) by closed_bounds.
  assert (Hfit : 8 * (signed64 (regs sample_machine_df RDX) - 4)
                 <= regs sample_machine_df RSP + 0x30) by closed_bounds.
  assert (Hc : 4 < signed64 (regs sample_machine_df RDX)) by closed_bounds.
  destruct (do_syscall_needs_df_clear sample_machine_df Hwf Hdf Hlo Hhi Hfit Hc)
    as (_ & _ & _ & Hsixth).
  split; [exact Hsixth|]. split; vm_compute; reflexivity.
Defined.

End UnhookFacts.
